(** * Duty rotation bot: the rotation resolver and the swap callback

    A shallow embedding of [src/main.py]: the helpers that read the
    schedule state, [get_duty_member] (the weekly replay of the rotation
    index), [ensure_penalty_entry] and [volunteer_callback].

    Conventions of the embedding.
    - A [datetime.date] is its proleptic Gregorian ordinal, an integer
      ([date.toordinal()]); comparison of dates is comparison of ordinals
      and [d + timedelta(days=n)] is [d + n] when that is the ordinal
      of a date, [date.min] to [date.max], and raises [OverflowError]
      otherwise.
    - The state dictionary is a record with one field per key that
      [load_state] guarantees. Dates stored as text are kept parsed; a
      dictionary keyed by [str(user_id)] or by [d.isoformat()] is a
      finite map keyed by the integer or the date itself, both renderings
      being injective.
    - A function that receives [state] is a computation in a state and
      exception monad over the record, so that what it reads and what it
      writes are both visible in its type. *)

From Stdlib Require Import ZArith Lia.
From stdpp Require Import base option list gmap strings.

Local Open Scope Z_scope.

(** ** Calendar dates *)

Module Calendar.

Definition date := Z.

(** [_is_leap] of the datetime module. *)
Definition is_leap (year : Z) : bool :=
  (year mod 4 =? 0) && (negb (year mod 100 =? 0) || (year mod 400 =? 0)).

(** [_days_before_year]: days before January 1st of [year]. *)
Definition days_before_year (year : Z) : Z :=
  let y := year - 1 in y * 365 + y / 4 - y / 100 + y / 400.

(** [_DAYS_IN_MONTH], from January. *)
Definition DAYS_IN_MONTH : list Z :=
  [31; 28; 31; 30; 31; 30; 31; 31; 30; 31; 30; 31].

(** [_days_before_month]: days of [year] before the first of [month]. *)
Definition days_before_month (year month : Z) : Z :=
  foldr Z.add 0 (take (Z.to_nat (month - 1)) DAYS_IN_MONTH)
  + (if (2 <? month) && is_leap year then 1 else 0).

(** [date(year, month, day).toordinal()]. *)
Definition ymd (year month day : Z) : date :=
  days_before_year year + days_before_month year month + day.

(** [date.weekday()]: Monday is 0. *)
Definition weekday (d : date) : Z := (d + 6) mod 7.

(** [_MAXORDINAL], the ordinal of [date.max], December 31st, 9999. *)
Definition MAXORDINAL : Z := 3652059.

(** The ordinals of the dates there are: [0 < o <= _MAXORDINAL]. *)
Definition is_date (o : Z) : Prop := 0 < o ≤ MAXORDINAL.

End Calendar.

Import Calendar.

(** ** The data model *)

(** An entry of [state["members"]]. *)
Record Member := mkMember { id : Z; label : string }.

(** An interval [{"from": ..., "to": ...}], both ends included. *)
Record Range := mkRange { from : date; to : date }.

(** The dictionary returned by [load_state]. *)
Record State := mkState {
  start_date : date;
  members : list Member;
  penalties : gmap Z Z;
  overrides : gmap Z Z;
  global_holidays : list Range;
  away_ranges : gmap Z (list Range);
  notify_chats : list Z
}.

Definition set_overrides (f : gmap Z Z → gmap Z Z) (s : State) : State :=
  mkState (start_date s) (members s) (penalties s) (f (overrides s))
          (global_holidays s) (away_ranges s) (notify_chats s).

Definition set_penalties (f : gmap Z Z → gmap Z Z) (s : State) : State :=
  mkState (start_date s) (members s) (f (penalties s)) (overrides s)
          (global_holidays s) (away_ranges s) (notify_chats s).

(** [DEFAULT_STATE] as [load_state] rebuilds it. *)
Definition DEFAULT_STATE : State :=
  mkState (ymd 2025 12 1) [] ∅ ∅ [] ∅ [].

(** ** Computations over a mutable object *)

Inductive exn := IndexError | KeyError | OverflowError.

(** The outcome of a call: a value, a raised exception, or a loop that was
    cut by its iteration bound. *)
Inductive result (A : Type) :=
  | Ok (a : A)
  | Raise (e : exn)
  | OutOfFuel.
Arguments Ok {A} a.
Arguments Raise {A} e.
Arguments OutOfFuel {A}.

Definition St (S A : Type) : Type := S → result A * S.

Section Monad.
Context {S : Type}.

Definition ret {A} (a : A) : St S A := λ s, (Ok a, s).

Definition bind {A B} (m : St S A) (k : A → St S B) : St S B :=
  λ s, match m s with
       | (Ok a, s') => k a s'
       | (Raise e, s') => (Raise e, s')
       | (OutOfFuel, s') => (OutOfFuel, s')
       end.

Definition gets {A} (f : S → A) : St S A := λ s, (Ok (f s), s).
Definition modify (f : S → S) : St S unit := λ s, (Ok tt, f s).
Definition raise {A} (e : exn) : St S A := λ s, (Raise e, s).
Definition out_of_fuel {A} : St S A := λ s, (OutOfFuel, s).

(** [d + timedelta(days=n)]: the date [n] days on, or [OverflowError]
    when there is no such date. *)
Definition add_days (d : date) (n : Z) : St S date :=
  if decide (0 < d + n ≤ MAXORDINAL) then ret (d + n)
  else raise OverflowError.
End Monad.

Notation "x <- c1 ;; c2" := (bind c1 (λ x, c2))
  (at level 20, c1 at level 99, c2 at level 200, only parsing).
Notation "' pat <- c1 ;; c2" := (bind c1 (λ x, match x with pat => c2 end))
  (at level 20, pat pattern, c1 at level 99, c2 at level 200, only parsing).

(** The helpers below all receive the schedule dictionary. *)
Abbreviation M := (St State).

(** ** Helpers of the source *)

(** [get_member_by_id]: the first member whose id is [user_id]. *)
Definition get_member_by_id (user_id : Z) : M (option Member) :=
  ms <- gets members ;;
  ret (find (λ m, bool_decide (id m = user_id)) ms).

(** [ensure_penalty_entry]: [state["penalties"].setdefault(pid, 0)]. *)
Definition ensure_penalty_entry (user_id : Z) : M unit :=
  modify (set_penalties (λ p, match p !! user_id with
                              | Some _ => p
                              | None => <[user_id := 0]> p
                              end)).

Definition get_start_date : M date := gets start_date.

(** [day_in_range]: [start <= d <= end]. *)
Definition day_in_range (d : date) (r : Range) : bool :=
  bool_decide (from r ≤ d) && bool_decide (d ≤ to r).

(** [is_global_holiday]: some stored interval contains [d]. *)
Definition is_global_holiday (d : date) : M bool :=
  rs <- gets global_holidays ;;
  ret (existsb (day_in_range d) rs).

(** [is_member_away_on]: some interval stored for [user_id] contains [d];
    a user without an entry has the empty list. *)
Definition is_member_away_on (user_id : Z) (d : date) : M bool :=
  aw <- gets away_ranges ;;
  ret (existsb (day_in_range d) (default [] (aw !! user_id))).

(** [members[idx]] for an index that is never negative. *)
Definition index (ms : list Member) (idx : nat) : M Member :=
  match ms !! idx with
  | Some m => ret m
  | None => raise IndexError
  end.

(** ** The rotation resolver *)

(** The inner loop of [get_duty_member], [while tried < len(members)],
    by recursion on [len(members) - tried]. It yields the candidate it
    assigned with the new [pos], or nothing when the loop ran out. *)
Fixpoint scan (n : nat) (ms : list Member) (current : date) (idx : nat)
  : M (option (Member * nat)) :=
  match n with
  | O => ret None
  | S n' =>
      candidate <- index ms idx ;;
      away <- is_member_away_on (id candidate) current ;;
      if negb away
      then ret (Some (candidate, ((idx + 1) mod length ms)%nat))
      else scan n' ms current ((idx + 1) mod length ms)%nat
  end.

(** One pass through the body of the outer loop, up to the test
    [current == day]: the value of [assigned_member] and of [pos] there. *)
Definition duty_cycle (ms : list Member) (current : date) (pos : nat)
  : M (option Member * nat) :=
  holiday <- is_global_holiday current ;;
  if holiday then ret (None, pos)
  else
    ov <- gets overrides ;;
    match ov !! current with
    | Some override_id =>
        assigned_member <- get_member_by_id override_id ;;
        ret (assigned_member, ((pos + 1) mod length ms)%nat)
    | None =>
        found <- scan (length ms) ms current pos ;;
        match found with
        | Some (candidate, pos') => ret (Some candidate, pos')
        | None => ret (None, pos)
        end
    end.

(** The outer loop, [while current <= day], with an iteration bound. *)
Fixpoint duty_loop (fuel : nat) (ms : list Member) (day : date)
    (pos : nat) (current : date) : M (option Member) :=
  if decide (current ≤ day) then
    match fuel with
    | O => out_of_fuel
    | S fuel' =>
        '(assigned_member, pos') <- duty_cycle ms current pos ;;
        if decide (current = day) then ret assigned_member
        else
          next <- add_days current 7 ;;
          duty_loop fuel' ms day pos' next
    end
  else ret None.

(** [get_duty_member]. The loop steps by 7 days from [start_date], so
    [(day - start_date) / 7 + 1] iterations reach past [day]. *)
Definition get_duty_member (day : date) : M (option Member) :=
  ms <- gets members ;;
  match ms with
  | [] => ret None
  | _ :: _ =>
      start <- get_start_date ;;
      if decide (day < start) then ret None
      else duty_loop (S (Z.to_nat ((day - start) / 7))) ms day 0%nat start
  end.

(** [get_duty_for_day]: the label shown, [None] standing for the
    "nobody" text. *)
Definition get_duty_for_day (day : date) : M (option string) :=
  m <- get_duty_member day ;;
  ret (label <$> m).

(** ** The swap callback *)

(** The file [DATA_FILE]: missing, or holding the state last saved. *)
Definition World := option State.

(** [load_state]: the saved state, or a fresh default one that is written
    out at once when there is no file. *)
Definition load_state : St World State :=
  λ w, match w with
       | Some state => (Ok state, w)
       | None => (Ok DEFAULT_STATE, Some DEFAULT_STATE)
       end.

(** [save_state]. *)
Definition save_state (state : State) : St World unit :=
  λ _, (Ok tt, Some state).

(** A call [m] on the handler's local dictionary [state]: the
    continuation receives the value and the dictionary as the call left
    it; an exception leaves the handler. *)
Definition call {A B} (state : State) (m : M A)
    (k : A → State → St World B) : St World B :=
  λ w, match m state with
       | (Ok a, state') => k a state' w
       | (Raise e, _) => (Raise e, w)
       | (OutOfFuel, _) => (OutOfFuel, w)
       end.

(** [state["overrides"][iso] = volunteer_id]. *)
Definition set_override (d : date) (user_id : Z) : M unit :=
  modify (set_overrides <[d := user_id]>).

(** [state["penalties"][pid] += 1]. *)
Definition add_penalty (pid : Z) : M unit :=
  λ s, match penalties s !! pid with
       | Some n => (Ok tt, set_penalties <[pid := n + 1]> s)
       | None => (Raise KeyError, s)
       end.

(** How a person is named in a message: by label, or as [id N] when the
    id is not a member's. *)
Inductive Name := Label (l : string) | RawId (user_id : Z).

Definition name_of (m : option Member) (user_id : Z) : Name :=
  match m with
  | Some m => Label (label m)
  | None => RawId user_id
  end.

(** The three texts [volunteer_callback] can put in the message. *)
Inductive Reply :=
  | NotInList
  | AlreadyAgreed (d : date) (who : Name)
  | Swapped (d : date) (absent : Name) (volunteer : string).

(** [volunteer_callback], for the callback data
    [volunteer|duty_date|absent_id] pressed by user [volunteer_id]. *)
Definition volunteer_callback (duty_date : date) (absent_id volunteer_id : Z)
  : St World Reply :=
  state <- load_state ;;
  call state (get_member_by_id volunteer_id) (λ volunteer_member state,
  match volunteer_member with
  | None => ret NotInList
  | Some volunteer_member =>
      match overrides state !! duty_date with
      | Some already_id =>
          call state (get_member_by_id already_id) (λ already_member state,
          ret (AlreadyAgreed duty_date (name_of already_member already_id)))
      | None =>
          call state (set_override duty_date volunteer_id) (λ _ state,
          call state (ensure_penalty_entry absent_id) (λ _ state,
          call state (add_penalty absent_id) (λ _ state,
          call state (get_member_by_id absent_id) (λ absent_member state,
          _ <- save_state state ;;
          ret (Swapped duty_date (name_of absent_member absent_id)
                       (label volunteer_member))))))
      end
  end).

(** The state an accepted swap is expected to save: the override of the
    date by the volunteer, one more penalty for the absent member. *)
Definition accepted (s : State) (duty_date : date)
    (absent_id volunteer_id : Z) : State :=
  mkState (start_date s) (members s)
          (<[absent_id := default 0 (penalties s !! absent_id) + 1]>
             (penalties s))
          (<[duty_date := volunteer_id]> (overrides s))
          (global_holidays s) (away_ranges s) (notify_chats s).

(** ** Running a computation *)

(** [returns m s a]: run from [s], the call [m] returns [a] and leaves the
    object as it was. *)
Definition returns {A} (m : M A) (s : State) (a : A) : Prop :=
  m s = (Ok a, s).

(** The [k]-th date of the weekly cadence. *)
Definition cadence (s : State) (k : nat) : date :=
  start_date s + 7 * Z.of_nat k.

(** What a pass of the loop body leaves in [(assigned_member, pos)]. *)
Definition cycle_out (s : State) (current : date) (pos : nat)
  : option Member * nat :=
  match fst (duty_cycle (members s) current pos s) with
  | Ok r => r
  | _ => (None, pos)
  end.

(** The value of [pos] when the loop reaches the [k]-th cadence date. *)
Fixpoint pointer_at (s : State) (k : nat) : nat :=
  match k with
  | O => O
  | S k' => snd (cycle_out s (cadence s k') (pointer_at s k'))
  end.

(** The member at circular distance [t] from [idx]. *)
Definition at_offset (ms : list Member) (idx t : nat) : option Member :=
  ms !! ((idx + t) mod length ms)%nat.

(** What [scan] found: the first candidate not away, at some distance
    [t] below the bound, everyone before being away; or nobody. *)
Definition scan_post (s : State) (n : nat) (ms : list Member)
    (current : date) (idx : nat) (r : option (Member * nat)) : Prop :=
  match r with
  | Some (c, pos') =>
      ∃ t, (t < n)%nat
        ∧ at_offset ms idx t = Some c
        ∧ returns (is_member_away_on (id c) current) s false
        ∧ (∀ j m, (j < t)%nat → at_offset ms idx j = Some m →
                  returns (is_member_away_on (id m) current) s true)
        ∧ pos' = ((idx + t + 1) mod length ms)%nat
  | None =>
      ∀ j m, (j < n)%nat → at_offset ms idx j = Some m →
             returns (is_member_away_on (id m) current) s true
  end.

(** Two states that differ in their holidays only, such that the cadence
    dates before the [k]-th are frozen in both or in neither and the
    [k]-th is not frozen in the second. *)
Definition holiday_lifted (s s' : State) (k : nat) : Prop :=
  start_date s' = start_date s
  ∧ members s' = members s
  ∧ overrides s' = overrides s
  ∧ away_ranges s' = away_ranges s
  ∧ (∀ j, (j < k)%nat →
          fst (is_global_holiday (cadence s j) s')
          = fst (is_global_holiday (cadence s j) s))
  ∧ returns (is_global_holiday (cadence s k)) s' false.

(** ** Sample states *)

Module Sample.
Definition A := mkMember 1 "A".
Definition B := mkMember 2 "B".
Definition C := mkMember 3 "C".

(** The three-member rotation of December 2025. *)
Definition plain : State :=
  mkState (ymd 2025 12 1) [A; B; C] ∅ ∅ [] ∅ [].

(** The same with the week of December 8th frozen. *)
Definition frozen : State :=
  mkState (ymd 2025 12 1) [A; B; C] ∅ ∅
          [mkRange (ymd 2025 12 8) (ymd 2025 12 8)] ∅ [].

(** B away on December 8th. *)
Definition b_away : State :=
  mkState (ymd 2025 12 1) [A; B; C] ∅ ∅ []
          {[ 2 := [mkRange (ymd 2025 12 8) (ymd 2025 12 8)] ]} [].

(** Everybody away on December 8th. *)
Definition all_away : State :=
  mkState (ymd 2025 12 1) [A; B; C] ∅ ∅ []
          (list_to_map
             [(1, [mkRange (ymd 2025 12 8) (ymd 2025 12 8)]);
              (2, [mkRange (ymd 2025 12 1) (ymd 2025 12 31)]);
              (3, [mkRange (ymd 2025 12 8) (ymd 2025 12 14)])]) [].

(** An override of December 8th by C, who is not next in line. *)
Definition swapped : State :=
  mkState (ymd 2025 12 1) [A; B; C] ∅ {[ ymd 2025 12 8 := 3 ]} [] ∅ [].

(** An override of December 8th naming id 99, who left the list. *)
Definition dangling : State :=
  mkState (ymd 2025 12 1) [A; B; C] ∅ {[ ymd 2025 12 8 := 99 ]} [] ∅ [].

(** Two members, the first week frozen, A away the week after. *)
Definition thaw : State :=
  mkState (ymd 2025 12 1) [A; B] ∅ ∅
          [mkRange (ymd 2025 12 1) (ymd 2025 12 1)]
          {[ 1 := [mkRange (ymd 2025 12 8) (ymd 2025 12 8)] ]} [].

(** A rotation started in the last week of the calendar. *)
Definition last_week : State :=
  mkState (ymd 9999 12 27) [A; B; C] ∅ ∅ [] ∅ [].

(** [thaw] with its holiday removed. *)
Definition thaw_no_holiday : State :=
  mkState (ymd 2025 12 1) [A; B] ∅ ∅ []
          {[ 1 := [mkRange (ymd 2025 12 8) (ymd 2025 12 8)] ]} [].
End Sample.

(** * The other handlers *)

(** ** Field updates *)

Definition set_start_date (d : date) (s : State) : State :=
  mkState d (members s) (penalties s) (overrides s)
          (global_holidays s) (away_ranges s) (notify_chats s).

Definition set_members (f : list Member → list Member) (s : State) : State :=
  mkState (start_date s) (f (members s)) (penalties s) (overrides s)
          (global_holidays s) (away_ranges s) (notify_chats s).

Definition set_global_holidays (f : list Range → list Range) (s : State)
  : State :=
  mkState (start_date s) (members s) (penalties s) (overrides s)
          (f (global_holidays s)) (away_ranges s) (notify_chats s).

Definition set_away_ranges
    (f : gmap Z (list Range) → gmap Z (list Range)) (s : State) : State :=
  mkState (start_date s) (members s) (penalties s) (overrides s)
          (global_holidays s) (f (away_ranges s)) (notify_chats s).

Definition set_notify_chats (f : list Z → list Z) (s : State) : State :=
  mkState (start_date s) (members s) (penalties s) (overrides s)
          (global_holidays s) (away_ranges s) (f (notify_chats s)).

(** ** Administrators and members *)

(** [ADMIN_IDS]: empty in the source. *)
Definition ADMIN_IDS : list Z := [].

(** [is_admin]: [(not ADMIN_IDS) or (user_id in ADMIN_IDS)]. *)
Definition is_admin (user_id : Z) : bool :=
  match ADMIN_IDS with
  | [] => true
  | _ :: _ => bool_decide (user_id ∈ ADMIN_IDS)
  end.

(** [get_member_by_label]: the first member labelled [l]. *)
Definition get_member_by_label (l : string) : M (option Member) :=
  ms <- gets members ;;
  ret (find (λ m, bool_decide (label m = l)) ms).

(** [existing["label"] = label], where [existing] is the dictionary that
    [get_member_by_id user_id] found: an element of the members list,
    the first with that id, updated in place. *)
Fixpoint relabel (user_id : Z) (l : string) (ms : list Member)
  : list Member :=
  match ms with
  | [] => []
  | m :: ms' =>
      if bool_decide (id m = user_id) then mkMember (id m) l :: ms'
      else m :: relabel user_id l ms'
  end.

Definition set_label (user_id : Z) (l : string) : M unit :=
  modify (set_members (relabel user_id l)).

(** [state["members"].append(m)]. *)
Definition append_member (m : Member) : M unit :=
  modify (set_members (λ ms, ms ++ [m])).

Global Instance Member_eq : EqDecision Member.
Proof. solve_decision. Defined.

(** [list.remove(x)]: without the first element equal to [x]. The two
    calls of the source remove an element just found in the list. *)
Fixpoint remove_first {A} `{EqDecision A} (x : A) (l : list A) : list A :=
  match l with
  | [] => []
  | y :: l' => if decide (y = x) then l' else y :: remove_first x l'
  end.

(** [state["members"].remove(member)] and
    [state["penalties"].pop(pid, None)]. *)
Definition remove_member (m : Member) : M unit :=
  _ <- modify (set_members (remove_first m)) ;;
  modify (set_penalties (delete (id m))).

(** ** Answers *)

(** What a command handler replies, without the wording. *)
Inductive Answer :=
  | Usage
  | BadDate
  | AdminOnly
  | DutyOn (d : date) (duty : option string)
  | DutyList (lines : list (date * option string))
  | NoDutyThatDay
  | NotYourDuty (d : date) (duty : string)
  | Offer (d : date) (duty : string) (absent_id : Z)
  | Renamed (l : string)
  | Joined (l : string)
  | MemberUpdated (user_id : Z) (l : string)
  | MemberAdded (l : string) (user_id : Z)
  | NoSuchMember (l : string)
  | MemberRemoved (l : string)
  | NoMembers
  | Points (lines : list (string * Z))
  | Inverted
  | HolidayAdded (d_from d_to : date)
  | NeedJoin
  | AwayAdded (d_from d_to : date)
  | StartChanged (d : date)
  | NotifyAlready
  | NotifyEnabled
  | NotifyNotEnabled
  | NotifyDisabled.

(** The arguments of a command that takes dates are given as
    [parse_date] leaves them: a date, or [None] where it raises
    [ValueError]. *)

(** ** Registration *)

(** [" ".join(context.args)]. *)
Definition join_words (args : list string) : string := String.concat " " args.

(** [join_handler]. *)
Definition join_handler (user_id : Z) (args : list string)
  : St World Answer :=
  match args with
  | [] => ret Usage
  | _ :: _ =>
      let l := join_words args in
      state <- load_state ;;
      call state (get_member_by_id user_id) (λ existing state,
      match existing with
      | Some _ =>
          call state (set_label user_id l) (λ _ state,
          call state (ensure_penalty_entry user_id) (λ _ state,
          _ <- save_state state ;;
          ret (Renamed l)))
      | None =>
          call state (append_member (mkMember user_id l)) (λ _ state,
          call state (ensure_penalty_entry user_id) (λ _ state,
          _ <- save_state state ;;
          ret (Joined l)))
      end)
  end.

(** [addmember_handler]; [reply_to] is the author of the message replied
    to, when the command is a reply. *)
Definition addmember_handler (user_id : Z) (args : list string)
    (reply_to : option Z) : St World Answer :=
  if negb (is_admin user_id) then ret AdminOnly
  else
    match args with
    | [] => ret Usage
    | _ :: _ =>
        let l := join_words args in
        let target_id := default user_id reply_to in
        state <- load_state ;;
        call state (get_member_by_id target_id) (λ existing state,
        match existing with
        | Some _ =>
            call state (set_label target_id l) (λ _ state,
            call state (ensure_penalty_entry target_id) (λ _ state,
            _ <- save_state state ;;
            ret (MemberUpdated target_id l)))
        | None =>
            call state (append_member (mkMember target_id l)) (λ _ state,
            call state (ensure_penalty_entry target_id) (λ _ state,
            _ <- save_state state ;;
            ret (MemberAdded l target_id)))
        end)
    end.

(** [removemember_handler]. *)
Definition removemember_handler (user_id : Z) (args : list string)
  : St World Answer :=
  if negb (is_admin user_id) then ret AdminOnly
  else
    match args with
    | [] => ret Usage
    | _ :: _ =>
        let l := join_words args in
        state <- load_state ;;
        call state (get_member_by_label l) (λ member state,
        match member with
        | None => ret (NoSuchMember l)
        | Some member =>
            call state (remove_member member) (λ _ state,
            _ <- save_state state ;;
            ret (MemberRemoved l))
        end)
  end.

(** [points_handler]: every member with [penalties.get(pid, 0)]. *)
Definition points_handler : St World Answer :=
  state <- load_state ;;
  match members state with
  | [] => ret NoMembers
  | _ :: _ =>
      ret (Points (map (λ m, (label m,
                              default 0 (penalties state !! id m)))
                       (members state)))
  end.

(** ** Holidays, absences, start date *)

(** [state["global_holidays"].append(r)]. *)
Definition append_holiday (r : Range) : M unit :=
  modify (set_global_holidays (λ rs, rs ++ [r])).

(** [state["away_ranges"].setdefault(uid, [])] followed by
    [state["away_ranges"][uid].append(r)]. *)
Definition append_away (user_id : Z) (r : Range) : M unit :=
  modify (set_away_ranges
            (λ aw, <[user_id := default [] (aw !! user_id) ++ [r]]> aw)).

(** [holidayrange_handler]. *)
Definition holidayrange_handler (user_id : Z) (args : list (option date))
  : St World Answer :=
  if negb (is_admin user_id) then ret AdminOnly
  else
    match args with
    | [from_arg; to_arg] =>
        match from_arg, to_arg with
        | Some d_from, Some d_to =>
            if decide (d_to < d_from) then ret Inverted
            else
              state <- load_state ;;
              call state (append_holiday (mkRange d_from d_to)) (λ _ state,
              _ <- save_state state ;;
              ret (HolidayAdded d_from d_to))
        | _, _ => ret BadDate
        end
    | _ => ret Usage
    end.

(** [away_handler]. *)
Definition away_handler (user_id : Z) (args : list (option date))
  : St World Answer :=
  match args with
  | [from_arg; to_arg] =>
      match from_arg, to_arg with
      | Some d_from, Some d_to =>
          if decide (d_to < d_from) then ret Inverted
          else
            state <- load_state ;;
            call state (get_member_by_id user_id) (λ member state,
            match member with
            | None => ret NeedJoin
            | Some _ =>
                call state (append_away user_id (mkRange d_from d_to))
                  (λ _ state,
                _ <- save_state state ;;
                ret (AwayAdded d_from d_to))
            end)
      | _, _ => ret BadDate
      end
  | _ => ret Usage
  end.

(** [setstart_handler]. *)
Definition setstart_handler (user_id : Z) (args : list (option date))
  : St World Answer :=
  if negb (is_admin user_id) then ret AdminOnly
  else
    match args with
    | [Some new_date] =>
        state <- load_state ;;
        call state (modify (set_start_date new_date)) (λ _ state,
        _ <- save_state state ;;
        ret (StartChanged new_date))
    | [None] => ret BadDate
    | _ => ret Usage
    end.

(** ** Reminder destinations *)

(** [enablenotify_handler], sent in chat [chat_id]. *)
Definition enablenotify_handler (user_id chat_id : Z) : St World Answer :=
  if negb (is_admin user_id) then ret AdminOnly
  else
    state <- load_state ;;
    if bool_decide (chat_id ∈ notify_chats state) then ret NotifyAlready
    else
      call state (modify (set_notify_chats (λ cs, cs ++ [chat_id])))
        (λ _ state,
      _ <- save_state state ;;
      ret NotifyEnabled).

(** [disablenotify_handler], sent in chat [chat_id]. *)
Definition disablenotify_handler (user_id chat_id : Z) : St World Answer :=
  if negb (is_admin user_id) then ret AdminOnly
  else
    state <- load_state ;;
    if negb (bool_decide (chat_id ∈ notify_chats state))
    then ret NotifyNotEnabled
    else
      call state (modify (set_notify_chats (remove_first chat_id)))
        (λ _ state,
      _ <- save_state state ;;
      ret NotifyDisabled).

(** [daily_reminder]: the messages it tries to send, as destination and
    label; a failed delivery is caught and the loop goes on. *)
Definition daily_reminder (today : date) : St World (list (Z * string)) :=
  state <- load_state ;;
  call state (get_duty_member today) (λ member state,
  match member with
  | None => ret []
  | Some member => ret (map (λ chat_id, (chat_id, label member))
                            (notify_chats state))
  end).

(** ** Schedule views *)

(** [today_handler]. *)
Definition today_handler (today : date) : St World Answer :=
  state <- load_state ;;
  call state (get_duty_for_day today) (λ duty _, ret (DutyOn today duty)).

(** [today + timedelta(days=(6 - today.weekday()) % 7)]. *)
Definition next_sunday {S} (today : date) : St S date :=
  add_days today ((6 - weekday today) mod 7).

(** [next_handler]. *)
Definition next_handler (today : date) : St World Answer :=
  state <- load_state ;;
  sunday <- next_sunday today ;;
  call state (get_duty_for_day sunday) (λ duty _,
  ret (DutyOn sunday duty)).

(** The loop of [week_handler] over the weeks [i]: the day
    [next_sunday + timedelta(weeks=i)] and who is on duty. *)
Fixpoint week_lines (sunday : date) (weeks : list Z)
  : M (list (date * option string)) :=
  match weeks with
  | [] => ret []
  | i :: weeks' =>
      duty_day <- add_days sunday (7 * i) ;;
      duty <- get_duty_for_day duty_day ;;
      rest <- week_lines sunday weeks' ;;
      ret ((duty_day, duty) :: rest)
  end.

(** [week_handler]: [for i in range(4)]. *)
Definition week_handler (today : date) : St World Answer :=
  state <- load_state ;;
  sunday <- next_sunday today ;;
  call state (week_lines sunday [0; 1; 2; 3])
    (λ lines _, ret (DutyList lines)).

(** The first duty day looked for by [calendar_handler]: [start], or
    [start + timedelta(days=7 * weeks_offset)] with
    [weeks_offset = (days_diff + 6) // 7]. *)
Definition first_duty_day (first_day start : date) : M date :=
  if decide (first_day ≤ start) then ret start
  else add_days start (7 * ((first_day - start + 6) / 7)).

(** The loop [while curr <= last_day] of [calendar_handler]. *)
Fixpoint month_lines (fuel : nat) (curr last_day : date)
  : M (list (date * option string)) :=
  if decide (curr ≤ last_day) then
    match fuel with
    | O => out_of_fuel
    | S fuel' =>
        duty <- get_duty_for_day curr ;;
        next <- add_days curr 7 ;;
        rest <- month_lines fuel' next last_day ;;
        ret ((curr, duty) :: rest)
    end
  else ret [].

(** [calendar_handler] from the point where the first and the last day of
    the month are known: its lines, none standing for the text that the
    month has no duty. *)
Definition calendar_lines (first_day last_day : date)
  : M (list (date * option string)) :=
  start <- get_start_date ;;
  curr <- first_duty_day first_day start ;;
  if decide (curr > last_day) then ret []
  else month_lines (S (Z.to_nat ((last_day - curr) / 7))) curr last_day.

(** ** Asking for a substitute *)

(** [skip_handler], sent by [requester_id]. *)
Definition skip_handler (requester_id : Z) (args : list (option date))
  : St World Answer :=
  match args with
  | [Some d] =>
      state <- load_state ;;
      call state (get_duty_member d) (λ duty_member _,
      match duty_member with
      | None => ret NoDutyThatDay
      | Some duty_member =>
          if bool_decide (id duty_member ≠ requester_id)
          then ret (NotYourDuty d (label duty_member))
          else ret (Offer d (label duty_member) requester_id)
      end)
  | [None] => ret BadDate
  | _ => ret Usage
  end.

(** ** The bot as a transition system *)

(** An update the bot reacts to: a command with its sender and arguments,
    the press of the volunteer button, or the daily job. [OtherCommand]
    stands for the commands that only load the state and display it. *)
Inductive Update :=
  | CmdToday (today : date)
  | CmdNext (today : date)
  | CmdWeek (today : date)
  | CmdJoin (user_id : Z) (args : list string)
  | CmdAddMember (user_id : Z) (args : list string) (reply_to : option Z)
  | CmdRemoveMember (user_id : Z) (args : list string)
  | CmdPoints
  | CmdHolidayRange (user_id : Z) (args : list (option date))
  | CmdAway (user_id : Z) (args : list (option date))
  | CmdSetStart (user_id : Z) (args : list (option date))
  | CmdEnableNotify (user_id chat_id : Z)
  | CmdDisableNotify (user_id chat_id : Z)
  | CmdSkip (user_id : Z) (args : list (option date))
  | PressVolunteer (duty_date : date) (absent_id volunteer_id : Z)
  | DailyJob (today : date)
  | OtherCommand.

Definition discard {A} (h : St World A) : St World unit :=
  _ <- h ;; ret tt.

(** The handlers registered in [main]. *)
Definition dispatch (u : Update) : St World unit :=
  match u with
  | CmdToday today => discard (today_handler today)
  | CmdNext today => discard (next_handler today)
  | CmdWeek today => discard (week_handler today)
  | CmdJoin user_id args => discard (join_handler user_id args)
  | CmdAddMember user_id args reply_to =>
      discard (addmember_handler user_id args reply_to)
  | CmdRemoveMember user_id args =>
      discard (removemember_handler user_id args)
  | CmdPoints => discard points_handler
  | CmdHolidayRange user_id args =>
      discard (holidayrange_handler user_id args)
  | CmdAway user_id args => discard (away_handler user_id args)
  | CmdSetStart user_id args => discard (setstart_handler user_id args)
  | CmdEnableNotify user_id chat_id =>
      discard (enablenotify_handler user_id chat_id)
  | CmdDisableNotify user_id chat_id =>
      discard (disablenotify_handler user_id chat_id)
  | CmdSkip user_id args => discard (skip_handler user_id args)
  | PressVolunteer duty_date absent_id volunteer_id =>
      discard (volunteer_callback duty_date absent_id volunteer_id)
  | DailyJob today => discard (daily_reminder today)
  | OtherCommand => discard load_state
  end.

(** The files the bot can leave behind, started without a file. *)
Inductive reachable : World → Prop :=
  | reach_start : reachable None
  | reach_step w u : reachable w → reachable (snd (dispatch u w)).

(** What every saved state satisfies: member ids are distinct, every
    member has a penalty entry, no penalty is negative, no stored interval
    is inverted, no chat is listed twice. *)
Record consistent (s : State) : Prop := {
  ids_distinct : NoDup (id <$> members s);
  members_have_penalty : ∀ m, m ∈ members s → is_Some (penalties s !! id m);
  penalties_nonneg : ∀ uid n, penalties s !! uid = Some n → 0 ≤ n;
  holidays_ordered : ∀ r, r ∈ global_holidays s → from r ≤ to r;
  absences_ordered :
    ∀ uid rs r, away_ranges s !! uid = Some rs → r ∈ rs → from r ≤ to r;
  chats_distinct : NoDup (notify_chats s)
}.

(** The state a handler works on after [load_state]. *)
Definition loaded (w : World) : State := default DEFAULT_STATE w.

(** A file, if there is one, holds a consistent state. *)
Definition world_ok (w : World) : Prop := ∀ s, w = Some s → consistent s.

(** Two states with the same start date and members that look alike on
    every cadence date up to the [k]-th: frozen in both or in neither,
    the same override entry, every member away in both or in neither. *)
Definition agree_upto (s s' : State) (k : nat) : Prop :=
  start_date s' = start_date s
  ∧ members s' = members s
  ∧ ∀ j, (j ≤ k)%nat →
      fst (is_global_holiday (cadence s j) s')
      = fst (is_global_holiday (cadence s j) s)
      ∧ overrides s' !! cadence s j = overrides s !! cadence s j
      ∧ ∀ m, m ∈ members s →
          fst (is_member_away_on (id m) (cadence s j) s')
          = fst (is_member_away_on (id m) (cadence s j) s).

(** ** More sample states *)

Module Scenario.
Import Sample.

(** A second away before the pointer: A away on December 1st. *)
Definition a_away_first : State :=
  mkState (ymd 2025 12 1) [A; B; C] ∅ ∅ []
          {[ 1 := [mkRange (ymd 2025 12 1) (ymd 2025 12 1)] ]} [].

(** A rotation that starts on a Sunday. *)
Definition sunday_start : State :=
  mkState (ymd 2025 11 30) [A; B; C] ∅ ∅ [] ∅ [].

(** The plain rotation with penalty entries and one reminder chat. *)
Definition settled : State :=
  mkState (ymd 2025 12 1) [A; B; C]
          (list_to_map [(1, 0); (2, 0); (3, 0)]) ∅ [] ∅ [-100].

(** C away on December 8th and named by the override of that day. *)
Definition override_away : State :=
  mkState (ymd 2025 12 1) [A; B; C] ∅ {[ ymd 2025 12 8 := 3 ]} []
          {[ 3 := [mkRange (ymd 2025 12 8) (ymd 2025 12 8)] ]} [].
End Scenario.

(** * Properties *)

Section Returns.
Context {A B : Type}.

Lemma returns_ret (a : A) s : returns (ret a) s a.
Proof. reflexivity. Qed.

Lemma returns_gets (f : State → A) s : returns (gets f) s (f s).
Proof. reflexivity. Qed.

Lemma bind_returns (m : M A) (k : A → M B) s a :
  returns m s a → bind m k s = k a s.
Proof. unfold returns, bind. now intros ->. Qed.

Lemma returns_bind (m : M A) (k : A → M B) s a b :
  returns m s a → returns (k a) s b → returns (bind m k) s b.
Proof. intros Hm Hk. unfold returns. now rewrite (bind_returns _ _ _ _ Hm). Qed.

Lemma returns_inj (m : M A) s a a' :
  returns m s a → returns m s a' → a = a'.
Proof. unfold returns. congruence. Qed.
End Returns.

Ltac step_with H := rewrite (bind_returns _ _ _ _ H).

Lemma get_member_by_id_returns uid s :
  returns (get_member_by_id uid) s
          (find (λ m, bool_decide (id m = uid)) (members s)).
Proof. reflexivity. Qed.

Lemma is_global_holiday_returns d s :
  returns (is_global_holiday d) s
          (existsb (day_in_range d) (global_holidays s)).
Proof. reflexivity. Qed.

Lemma is_member_away_on_returns uid d s :
  returns (is_member_away_on uid d) s
          (existsb (day_in_range d) (default [] (away_ranges s !! uid))).
Proof. reflexivity. Qed.

Lemma is_global_holiday_total d s : ∃ b, returns (is_global_holiday d) s b.
Proof. eexists. apply is_global_holiday_returns. Qed.

Lemma is_member_away_on_total uid d s :
  ∃ b, returns (is_member_away_on uid d) s b.
Proof. eexists. apply is_member_away_on_returns. Qed.

Lemma index_returns ms i m s : ms !! i = Some m → returns (index ms i) s m.
Proof. unfold index. now intros ->. Qed.

(** *** The absence scan *)

Lemma mod_succ_lt (i n : nat) : (0 < n)%nat → ((i + 1) mod n < n)%nat.
Proof. intros. apply Nat.mod_upper_bound. lia. Qed.

Lemma mod_walk (i t n : nat) :
  (0 < n)%nat → (((i + 1) mod n + t) mod n = (i + S t) mod n)%nat.
Proof.
  intros Hn. rewrite Nat.Div0.add_mod_idemp_l. f_equal. lia.
Qed.

Lemma scan_returns n ms current s : ∀ idx,
  (idx < length ms)%nat →
  ∃ r, returns (scan n ms current idx) s r ∧ scan_post s n ms current idx r.
Proof.
  induction n as [|n IH]; intros idx Hidx.
  - exists None. split; [reflexivity|]. intros j m Hj. lia.
  - destruct (lookup_lt_is_Some_2 ms idx Hidx) as [c Hc].
    cbn [scan]. pose proof (index_returns ms idx c s Hc) as Hi.
    pose proof (is_member_away_on_returns (id c) current s) as Ha.
    assert (Hn : (0 < length ms)%nat) by lia.
    destruct (existsb _ _) eqn:Haway in Ha.
    + destruct (IH _ (mod_succ_lt idx _ Hn)) as (r & Hr & Hpost).
      exists r. split.
      * unfold returns. step_with Hi. step_with Ha. exact Hr.
      * destruct r as [[c' p']|]; cbn in *.
        -- destruct Hpost as (t & Ht & Hat & Hnot & Hbefore & ->).
           exists (S t). unfold at_offset in *.
           rewrite mod_walk in Hat by done.
           repeat split; [lia|done|done| |].
           ++ intros [|j] m Hj Hm.
              ** rewrite Nat.add_0_r, Nat.mod_small in Hm by done.
                 congruence.
              ** apply (Hbefore j m); [lia|]. now rewrite mod_walk.
           ++ rewrite <- Nat.add_assoc, mod_walk by done. f_equal. lia.
        -- intros [|j] m Hj Hm; unfold at_offset in *.
           ++ rewrite Nat.add_0_r, Nat.mod_small in Hm by done. congruence.
           ++ apply (Hpost j m); [lia|]. now rewrite mod_walk.
    + exists (Some (c, ((idx + 1) mod length ms)%nat)). split.
      * unfold returns. step_with Hi. step_with Ha. reflexivity.
      * exists O. unfold at_offset.
        rewrite !Nat.add_0_r, Nat.mod_small by done.
        repeat split; [lia|done|done|intros; lia].
Qed.

(** *** One cycle *)

Section Cycle.
Variables (s : State) (ms : list Member) (current : date) (pos : nat).

Lemma duty_cycle_holiday :
  returns (is_global_holiday current) s true →
  returns (duty_cycle ms current pos) s (None, pos).
Proof. intros H. unfold returns, duty_cycle. now step_with H. Qed.

Lemma duty_cycle_override uid a :
  returns (is_global_holiday current) s false →
  overrides s !! current = Some uid →
  returns (get_member_by_id uid) s a →
  returns (duty_cycle ms current pos) s
          (a, ((pos + 1) mod length ms)%nat).
Proof.
  intros H Ho Ha. unfold returns, duty_cycle. step_with H.
  step_with (returns_gets overrides s). rewrite Ho. now step_with Ha.
Qed.

Lemma duty_cycle_scan r :
  returns (is_global_holiday current) s false →
  overrides s !! current = None →
  returns (scan (length ms) ms current pos) s r →
  returns (duty_cycle ms current pos) s
          (match r with
           | Some (c, pos') => (Some c, pos')
           | None => (None, pos)
           end).
Proof.
  intros H Ho Hr. unfold returns, duty_cycle. step_with H.
  step_with (returns_gets overrides s). rewrite Ho. step_with Hr.
  now destruct r as [[c p]|].
Qed.

(** A cycle entered with a valid index returns, leaves the state alone
    and hands back a valid index. *)
Lemma duty_cycle_total :
  (pos < length ms)%nat →
  ∃ a pos', returns (duty_cycle ms current pos) s (a, pos')
            ∧ (pos' < length ms)%nat.
Proof.
  intros Hpos. assert (Hn : (0 < length ms)%nat) by lia.
  pose proof (is_global_holiday_returns current s) as Hh.
  destruct (existsb _ _) in Hh.
  - exists None, pos. split; [now apply duty_cycle_holiday | done].
  - destruct (overrides s !! current) as [uid|] eqn:Ho.
    + eexists _, _. split.
      * eapply duty_cycle_override; eauto. apply get_member_by_id_returns.
      * now apply mod_succ_lt.
    + destruct (scan_returns (length ms) ms current s pos Hpos)
        as (r & Hr & Hpost).
      pose proof (duty_cycle_scan r Hh Ho Hr) as Hc.
      destruct r as [[c p]|]; eexists _, _; (split; [exact Hc|]); [|done].
      destruct Hpost as (t & _ & _ & _ & _ & ->).
      apply Nat.mod_upper_bound. lia.
Qed.
End Cycle.

Lemma cycle_out_returns s current pos r :
  returns (duty_cycle (members s) current pos) s r →
  cycle_out s current pos = r.
Proof. unfold returns, cycle_out. now intros ->. Qed.

Lemma cycle_out_spec s current pos :
  (pos < length (members s))%nat →
  returns (duty_cycle (members s) current pos) s (cycle_out s current pos)
  ∧ (snd (cycle_out s current pos) < length (members s))%nat.
Proof.
  intros Hpos.
  destruct (duty_cycle_total s (members s) current pos Hpos)
    as (a & p & Hr & Hp).
  now rewrite (cycle_out_returns _ _ _ _ Hr).
Qed.

Lemma pointer_at_lt s k :
  members s ≠ [] → (pointer_at s k < length (members s))%nat.
Proof.
  intros Hne. induction k as [|k IH]; cbn [pointer_at].
  - destruct (members s); [done | cbn; lia].
  - now apply cycle_out_spec.
Qed.

Lemma cadence_0 s : cadence s 0 = start_date s.
Proof. unfold cadence. lia. Qed.

Lemma cadence_succ s k : cadence s (S k) = cadence s k + 7.
Proof. unfold cadence. lia. Qed.

(** *** Steps of seven days *)

Lemma add_days_run {S} (d n : Z) (s : S) :
  add_days d n s
  = (if decide (0 < d + n ≤ MAXORDINAL) then Ok (d + n)
     else Raise OverflowError, s).
Proof. unfold add_days. now destruct (decide _). Qed.

Lemma add_days_in (d n : Z) (s : State) :
  0 < d + n ≤ MAXORDINAL → returns (add_days d n) s (d + n).
Proof. intros H. unfold returns. now rewrite add_days_run, decide_True. Qed.

Lemma add_days_out {S} (d n : Z) (s : S) :
  ¬ 0 < d + n ≤ MAXORDINAL → add_days d n s = (Raise OverflowError, s).
Proof. intros H. now rewrite add_days_run, decide_False. Qed.

Lemma bind_raises {A B} (m : M A) (k : A → M B) s e :
  m s = (Raise e, s) → bind m k s = (Raise e, s).
Proof. unfold bind. now intros ->. Qed.

(** *** The outer loop *)

(** With enough iterations the loop hands the state back as it received
    it, and either returns, nothing off the cadence of [current], or
    raises [OverflowError]; it returns whenever a week after [day] is
    still in the calendar. *)
Lemma duty_loop_outcome s ms day : ∀ fuel pos current,
  (pos < length ms)%nat →
  day - current < 7 * Z.of_nat fuel →
  ∃ r, duty_loop fuel ms day pos current s = (r, s)
       ∧ ((∃ a, r = Ok a ∧ ((day - current) mod 7 ≠ 0 → a = None))
          ∨ r = Raise OverflowError)
       ∧ (0 < current + 7 → day + 7 ≤ MAXORDINAL → ∃ a, r = Ok a).
Proof.
  induction fuel as [|fuel IH]; intros pos current Hpos Hfuel.
  - exists (Ok None). cbn [duty_loop].
    destruct (decide (current ≤ day)); [lia|].
    split; [reflexivity | split; [left|]; eauto].
  - cbn [duty_loop]. destruct (decide (current ≤ day)) as [Hle|Hgt].
    + destruct (duty_cycle_total s ms current pos Hpos) as (a & p & Hc & Hp).
      destruct (decide (current = day)) as [->|Hne].
      * exists (Ok a). split; [|split].
        -- step_with Hc. now rewrite decide_True.
        -- left. exists a. split; [reflexivity|].
           rewrite Z.sub_diag. intros H. now elim H.
        -- eauto.
      * step_with Hc. rewrite decide_False by done.
        destruct (decide (0 < current + 7 ≤ MAXORDINAL)) as [Hin|Hout].
        -- destruct (IH p (current + 7) Hp) as (r & Hr & Hoff & Hroom);
             [lia|].
           exists r. split; [|split].
           ++ now step_with (add_days_in current 7 s Hin).
           ++ destruct Hoff as [(b & Hb' & Hb)|Hb']; subst r;
                [left | now right].
              exists b. split; [reflexivity|]. intros Hm. apply Hb.
              replace (day - (current + 7)) with (day - current + (-1) * 7)
                by lia.
              now rewrite Z.mod_add.
           ++ intros H1 H2. apply Hroom; lia.
        -- exists (Raise OverflowError). split; [|split].
           ++ apply bind_raises. now apply add_days_out.
           ++ now right.
           ++ intros H1 H2. lia.
    + exists (Ok None). split; [reflexivity | split; [left|]; eauto].
Qed.

Lemma fuel_enough day start :
  start ≤ day →
  day - start < 7 * Z.of_nat (S (Z.to_nat ((day - start) / 7))).
Proof.
  intros H. rewrite Nat2Z.inj_succ, Z2Nat.id by (apply Z.div_pos; lia).
  pose proof (Z.mod_pos_bound (day - start) 7 ltac:(lia)).
  pose proof (Z.div_mod (day - start) 7 ltac:(lia)). lia.
Qed.

(** On the cadence the loop replays the cycles one by one: started at the
    [i]-th date with the pointer of that date, it returns what the cycle
    of the target date assigns when every step of seven days on the way
    stays in the calendar, and raises [OverflowError] when one does
    not. *)
Lemma duty_loop_cadence s : members s ≠ [] → ∀ j i fuel,
  (j < fuel)%nat →
  ∃ r, duty_loop fuel (members s) (cadence s (i + j))
                 (pointer_at s i) (cadence s i) s = (r, s)
       ∧ ((j = 0%nat
           ∨ (0 < cadence s i + 7 ∧ cadence s (i + j) ≤ MAXORDINAL)) →
          r = Ok (fst (cycle_out s (cadence s (i + j))
                                 (pointer_at s (i + j)))))
       ∧ (¬ (j = 0%nat
             ∨ (0 < cadence s i + 7 ∧ cadence s (i + j) ≤ MAXORDINAL)) →
          r = Raise OverflowError).
Proof.
  intros Hne. induction j as [|j IH]; intros i fuel Hfuel;
    (destruct fuel as [|fuel]; [lia|]); cbn [duty_loop];
    destruct (cycle_out_spec s (cadence s i) (pointer_at s i)
                (pointer_at_lt s i Hne)) as [Hc _].
  - rewrite Nat.add_0_r. rewrite decide_True by lia.
    exists (Ok (fst (cycle_out s (cadence s i) (pointer_at s i)))).
    split; [|split].
    + step_with Hc. destruct (cycle_out _ _ _) as [a p].
      now rewrite decide_True.
    + reflexivity.
    + intros H. elim H. now left.
  - rewrite decide_True by (unfold cadence; lia).
    step_with Hc.
    assert (Hp : pointer_at s (S i)
                 = snd (cycle_out s (cadence s i) (pointer_at s i)))
      by reflexivity.
    destruct (cycle_out s (cadence s i) (pointer_at s i)) as [a p].
    cbn [snd] in Hp. rewrite decide_False by (unfold cadence; lia).
    replace (i + S j)%nat with (S i + j)%nat by lia.
    destruct (decide (0 < cadence s i + 7 ≤ MAXORDINAL)) as [Hin|Hout].
    + step_with (add_days_in (cadence s i) 7 s Hin).
      rewrite <- cadence_succ, <- Hp.
      destruct (IH (S i) fuel ltac:(lia)) as (r & Hr & Hok & Hbad).
      exists r. split; [exact Hr | split].
      * intros [Hj|[H1 H2]]; [discriminate Hj|].
        apply Hok. destruct j; [now left | right].
        rewrite !cadence_succ in *. unfold cadence in *. lia.
      * intros H. apply Hbad. intros Hc'. apply H. right.
        destruct Hc' as [->|[_ Hs]].
        -- rewrite Nat.add_0_r, cadence_succ. exact Hin.
        -- split; [rewrite cadence_succ; lia | exact Hs].
    + eexists. split; [|split].
      * apply bind_raises. now apply add_days_out.
      * intros [H|[H1 H2]]; [discriminate|].
        elim Hout. unfold cadence in *. lia.
      * reflexivity.
Qed.

Lemma get_duty_member_unfold day s m ms :
  members s = m :: ms →
  start_date s ≤ day →
  get_duty_member day s
  = duty_loop (S (Z.to_nat ((day - start_date s) / 7))) (members s) day
              0%nat (start_date s) s.
Proof.
  intros Hm Hle. unfold get_duty_member.
  step_with (returns_gets members s). rewrite Hm.
  unfold get_start_date. step_with (returns_gets start_date s).
  now rewrite decide_False by lia.
Qed.

(** Resolution on a cadence date is the cycle of that date entered with
    the pointer the earlier cycles left, unless a step on the way leaves
    the calendar. *)
Lemma get_duty_member_cadence_outcome s k :
  members s ≠ [] →
  ∃ r, get_duty_member (cadence s k) s = (r, s)
       ∧ ((k = 0%nat
           ∨ (0 < start_date s + 7 ∧ cadence s k ≤ MAXORDINAL)) →
          r = Ok (fst (cycle_out s (cadence s k) (pointer_at s k))))
       ∧ (¬ (k = 0%nat
             ∨ (0 < start_date s + 7 ∧ cadence s k ≤ MAXORDINAL)) →
          r = Raise OverflowError).
Proof.
  intros Hne. destruct (members s) as [|m ms] eqn:Hm; [done|].
  rewrite (get_duty_member_unfold _ _ m ms Hm) by (unfold cadence; lia).
  replace (Z.to_nat ((cadence s k - start_date s) / 7)) with k.
  - rewrite <- Hm in Hne.
    pose proof (duty_loop_cadence s Hne k O (S k) ltac:(lia)) as H.
    now rewrite cadence_0 in H.
  - unfold cadence.
    replace (start_date s + 7 * Z.of_nat k - start_date s)
      with (Z.of_nat k * 7) by lia.
    rewrite Z.div_mul by lia. lia.
Qed.

(** For a start date and a cadence date that are dates, it returns. *)
Lemma get_duty_member_cadence s k :
  members s ≠ [] →
  is_date (start_date s) →
  is_date (cadence s k) →
  returns (get_duty_member (cadence s k)) s
          (fst (cycle_out s (cadence s k) (pointer_at s k))).
Proof.
  intros Hne [Hs _] [_ Hk].
  destruct (get_duty_member_cadence_outcome s k Hne) as (r & Hr & Hok & _).
  unfold returns. rewrite Hr, Hok; [reflexivity|]. right. lia.
Qed.

(** Whenever it returns on a cadence date, that is what it returns. *)
Lemma get_duty_member_cadence_inv s k a :
  members s ≠ [] →
  returns (get_duty_member (cadence s k)) s a →
  a = fst (cycle_out s (cadence s k) (pointer_at s k)).
Proof.
  intros Hne Ha.
  destruct (get_duty_member_cadence_outcome s k Hne) as (r & Hr & Hok & Hbad).
  unfold returns in Ha. rewrite Hr in Ha. injection Ha as Ha.
  destruct (decide (k = 0%nat
                    ∨ (0 < start_date s + 7 ∧ cadence s k ≤ MAXORDINAL)))
    as [H|H].
  - rewrite (Hok H) in Ha. now injection Ha.
  - rewrite (Hbad H) in Ha. discriminate Ha.
Qed.

(** ** Resolution before the start, without members, off the cadence *)

Lemma get_duty_member_no_members day s :
  members s = [] → returns (get_duty_member day) s None.
Proof.
  intros Hm. unfold returns, get_duty_member.
  step_with (returns_gets members s). now rewrite Hm.
Qed.

Lemma get_duty_member_before_start day s :
  day < start_date s → returns (get_duty_member day) s None.
Proof.
  intros Hlt. unfold returns, get_duty_member.
  step_with (returns_gets members s). destruct (members s); [done|].
  unfold get_start_date. step_with (returns_gets start_date s).
  now rewrite decide_True.
Qed.

(** Every call hands the state back as it received it. It returns,
    nothing off the cadence, or raises [OverflowError]; it returns
    whenever a week after [day] is still in the calendar. *)
Lemma get_duty_member_outcome day s :
  ∃ r, get_duty_member day s = (r, s)
       ∧ ((∃ a, r = Ok a ∧ ((day - start_date s) mod 7 ≠ 0 → a = None))
          ∨ r = Raise OverflowError)
       ∧ (0 < start_date s + 7 → day + 7 ≤ MAXORDINAL → ∃ a, r = Ok a).
Proof.
  destruct (members s) as [|m ms] eqn:Hm.
  { exists (Ok None).
    split; [now apply get_duty_member_no_members | split; [left|]; eauto]. }
  destruct (decide (day < start_date s)) as [Hlt|Hge].
  { exists (Ok None).
    split; [now apply get_duty_member_before_start | split; [left|]; eauto]. }
  rewrite (get_duty_member_unfold day s m ms Hm) by lia.
  apply duty_loop_outcome.
  - rewrite Hm. cbn. lia.
  - apply fuel_enough. lia.
Qed.

(** Off the cadence, with a week to spare in the calendar, nobody. *)
Lemma get_duty_member_off_cadence d s :
  0 < start_date s + 7 → d + 7 ≤ MAXORDINAL →
  (d - start_date s) mod 7 ≠ 0 →
  returns (get_duty_member d) s None.
Proof.
  intros Hs Hd Hoff.
  destruct (get_duty_member_outcome d s) as (r & Hr & Hcase & Hroom).
  destruct (Hroom Hs Hd) as [a ->].
  destruct Hcase as [(b & [= ->] & Hb)|[=]]. now rewrite (Hb Hoff) in Hr.
Qed.

(** C7: a target date before [start_date] resolves to nobody, and so does
    any date when the member list is empty; in both cases the state is
    handed back unchanged. *)
Theorem resolve_none_before_start_or_empty day s :
  day < start_date s ∨ members s = [] →
  returns (get_duty_member day) s None.
Proof.
  intros [H|H].
  - now apply get_duty_member_before_start.
  - now apply get_duty_member_no_members.
Qed.

Lemma resolve_none_before_start_or_empty_witness :
  returns (get_duty_member (ymd 2025 11 24)) Sample.plain None
  ∧ returns (get_duty_member (ymd 2025 12 1)) DEFAULT_STATE None.
Proof.
  split.
  - apply resolve_none_before_start_or_empty. left. vm_compute. reflexivity.
  - apply resolve_none_before_start_or_empty. right. reflexivity.
Defined.

(** ** The plain rotation *)

Section Plain.
Variable s : State.
Hypothesis no_holidays : global_holidays s = [].
Hypothesis no_overrides : overrides s = ∅.
Hypothesis no_absences :
  ∀ uid rs, away_ranges s !! uid = Some rs → rs = [].

Lemma plain_not_holiday d : returns (is_global_holiday d) s false.
Proof.
  pose proof (is_global_holiday_returns d s) as H.
  now rewrite no_holidays in H.
Qed.

Lemma plain_not_away uid d : returns (is_member_away_on uid d) s false.
Proof.
  pose proof (is_member_away_on_returns uid d s) as H.
  destruct (away_ranges s !! uid) as [rs|] eqn:E; [|exact H].
  now rewrite (no_absences uid rs E) in H.
Qed.

Lemma plain_cycle d pos m :
  members s !! pos = Some m →
  returns (duty_cycle (members s) d pos) s
          (Some m, ((pos + 1) mod length (members s))%nat).
Proof.
  intros Hm.
  apply (duty_cycle_scan s (members s) d pos
           (Some (m, ((pos + 1) mod length (members s))%nat))).
  - apply plain_not_holiday.
  - rewrite no_overrides. apply lookup_empty.
  - pose proof (lookup_lt_Some _ _ _ Hm) as Hlt.
    destruct (length (members s)) as [|n] eqn:Hlen; [lia|].
    cbn [scan]. unfold returns.
    step_with (index_returns (members s) pos m s Hm).
    step_with (plain_not_away (id m) d). now rewrite Hlen.
Qed.

Lemma plain_pointer k :
  members s ≠ [] →
  pointer_at s k = (k mod length (members s))%nat.
Proof.
  intros Hne. assert (Hn : (0 < length (members s))%nat).
  { destruct (members s); [done | cbn; lia]. }
  induction k as [|k IH]; cbn [pointer_at].
  - now rewrite Nat.Div0.mod_0_l.
  - destruct (lookup_lt_is_Some_2 (members s) (pointer_at s k)
                (pointer_at_lt s k Hne)) as [m Hm].
    rewrite (cycle_out_returns _ _ _ _ (plain_cycle (cadence s k) _ m Hm)).
    cbn [snd]. rewrite IH, Nat.Div0.add_mod_idemp_l. f_equal. lia.
Qed.
End Plain.

(** C1: with at least one member and neither holidays, absences nor
    overrides, the [k]-th cadence date, a date like the start date,
    resolves to the member at index [k mod N] of the list. *)
Theorem resolve_round_robin s k :
  members s ≠ [] →
  global_holidays s = [] →
  overrides s = ∅ →
  (∀ uid rs, away_ranges s !! uid = Some rs → rs = []) →
  is_date (start_date s) →
  is_date (start_date s + 7 * Z.of_nat k) →
  ∃ m, members s !! (k mod length (members s))%nat = Some m
       ∧ returns (get_duty_member (start_date s + 7 * Z.of_nat k)) s (Some m).
Proof.
  intros Hne Hh Ho Ha Hstart Hday.
  pose proof (pointer_at_lt s k Hne) as Hlt.
  rewrite (plain_pointer s Hh Ho Ha k Hne) in Hlt.
  destruct (lookup_lt_is_Some_2 _ _ Hlt) as [m Hm].
  exists m. split; [exact Hm|].
  pose proof (get_duty_member_cadence s k Hne Hstart Hday) as H.
  rewrite (plain_pointer s Hh Ho Ha k Hne) in H.
  rewrite (cycle_out_returns _ _ _ _
             (plain_cycle s Hh Ho Ha (cadence s k) _ m Hm)) in H.
  exact H.
Qed.

Ltac empty_map_hyp :=
  let H := fresh in intros ? ? H; vm_compute in H; discriminate H.

(** A concrete ordinal is that of a date. *)
Ltac in_calendar := vm_compute; split; [reflexivity | discriminate].

Lemma resolve_round_robin_witness :
  returns (get_duty_member (ymd 2025 12 1)) Sample.plain (Some Sample.A)
  ∧ returns (get_duty_member (ymd 2025 12 8)) Sample.plain (Some Sample.B)
  ∧ returns (get_duty_member (ymd 2025 12 15)) Sample.plain (Some Sample.C)
  ∧ returns (get_duty_member (ymd 2025 12 22)) Sample.plain (Some Sample.A).
Proof.
  assert (Hne : members Sample.plain ≠ []) by discriminate.
  assert (Ha : ∀ uid rs, away_ranges Sample.plain !! uid = Some rs → rs = [])
    by empty_map_hyp.
  assert (Hs : is_date (start_date Sample.plain)) by in_calendar.
  split; [|split; [|split]].
  - destruct (resolve_round_robin Sample.plain 0 Hne eq_refl eq_refl Ha
                Hs ltac:(in_calendar))
      as (m & Hm & Hr).
    vm_compute in Hm. injection Hm as <-. exact Hr.
  - destruct (resolve_round_robin Sample.plain 1 Hne eq_refl eq_refl Ha
                Hs ltac:(in_calendar))
      as (m & Hm & Hr).
    vm_compute in Hm. injection Hm as <-. exact Hr.
  - destruct (resolve_round_robin Sample.plain 2 Hne eq_refl eq_refl Ha
                Hs ltac:(in_calendar))
      as (m & Hm & Hr).
    vm_compute in Hm. injection Hm as <-. exact Hr.
  - destruct (resolve_round_robin Sample.plain 3 Hne eq_refl eq_refl Ha
                Hs ltac:(in_calendar))
      as (m & Hm & Hr).
    vm_compute in Hm. injection Hm as <-. exact Hr.
Defined.

(** ** Overrides *)

(** C3: on a cadence date that is not frozen and has an override, the
    cycle leaves the pointer one position further, modulo the number of
    members, than it found it, whoever the override names; this holds for
    any entry value of the pointer and so for the one the replay reaches. *)
Theorem override_consumes_one_turn s k uid :
  members s ≠ [] →
  returns (is_global_holiday (cadence s k)) s false →
  overrides s !! cadence s k = Some uid →
  (∀ pos, ∃ a,
     returns (get_member_by_id uid) s a
     ∧ returns (duty_cycle (members s) (cadence s k) pos) s
               (a, ((pos + 1) mod length (members s))%nat))
  ∧ pointer_at s (S k) = ((pointer_at s k + 1) mod length (members s))%nat.
Proof.
  intros Hne Hh Ho.
  assert (Hc : ∀ pos,
    returns (duty_cycle (members s) (cadence s k) pos) s
      (find (λ m, bool_decide (id m = uid)) (members s),
       ((pos + 1) mod length (members s))%nat)).
  { intros pos. eapply duty_cycle_override; eauto.
    apply get_member_by_id_returns. }
  split.
  - intros pos. eexists. split; [apply get_member_by_id_returns | apply Hc].
  - cbn [pointer_at]. now rewrite (cycle_out_returns _ _ _ _ (Hc _)).
Qed.

Lemma override_consumes_one_turn_witness :
  returns (duty_cycle (members Sample.swapped) (ymd 2025 12 8) 1)
          Sample.swapped (Some Sample.C, 2%nat)
  ∧ pointer_at Sample.swapped 2 = 2%nat.
Proof.
  destruct (override_consumes_one_turn Sample.swapped 1 3) as [Hc Hp].
  - discriminate.
  - reflexivity.
  - reflexivity.
  - split.
    + destruct (Hc 1%nat) as (a & Ha & Hr).
      vm_compute in Ha. injection Ha as <-. exact Hr.
    + rewrite Hp. reflexivity.
Defined.

(** Amended C2: when the override of a cadence date names an id that no
    member carries, the date resolves to nobody: the override is looked
    up among the members, and the stored id is not reported. The start
    date and the cadence date are dates of the calendar. *)
Theorem dangling_override_resolves_to_none s k uid :
  is_date (start_date s) →
  is_date (cadence s k) →
  overrides s !! cadence s k = Some uid →
  returns (get_member_by_id uid) s None →
  returns (get_duty_member (cadence s k)) s None.
Proof.
  intros Hstart Hday Ho Hg.
  destruct (decide (members s = [])) as [He|Hne].
  { now apply get_duty_member_no_members. }
  pose proof (get_duty_member_cadence s k Hne Hstart Hday) as H.
  pose proof (is_global_holiday_returns (cadence s k) s) as Hh.
  destruct (existsb _ _) in Hh.
  - now rewrite (cycle_out_returns _ _ _ _
                   (duty_cycle_holiday s _ _ (pointer_at s k) Hh)) in H.
  - now rewrite (cycle_out_returns _ _ _ _
                   (duty_cycle_override s _ _ (pointer_at s k) uid None
                      Hh Ho Hg)) in H.
Qed.

Lemma dangling_override_resolves_to_none_witness :
  returns (get_duty_member (ymd 2025 12 8)) Sample.dangling None.
Proof.
  apply (dangling_override_resolves_to_none Sample.dangling 1 99);
    try reflexivity; in_calendar.
Defined.

(** C2 as stated fails: December 8th is a cadence date of
    [Sample.dangling], not frozen, overridden by id 99 which no member
    carries, and it resolves to nobody instead of an assignment that
    carries 99. *)
Lemma dangling_override_counterexample :
  cadence Sample.dangling 1 = ymd 2025 12 8
  ∧ returns (is_global_holiday (ymd 2025 12 8)) Sample.dangling false
  ∧ overrides Sample.dangling !! ymd 2025 12 8 = Some 99
  ∧ returns (get_member_by_id 99) Sample.dangling None
  ∧ returns (get_duty_member (ymd 2025 12 8)) Sample.dangling None
  ∧ ¬ ∃ m, fst (get_duty_member (ymd 2025 12 8) Sample.dangling)
           = Ok (Some m) ∧ id m = 99.
Proof.
  repeat split; try reflexivity.
  intros (m & Hm & _). vm_compute in Hm. discriminate Hm.
Qed.

(** ** Absences *)

Lemma at_offset_elem ms idx t m : at_offset ms idx t = Some m → m ∈ ms.
Proof. unfold at_offset. intros H. eapply list_elem_of_lookup_2, H. Qed.

Lemma scan_all_away s ms current pos :
  (pos < length ms)%nat →
  (∀ m, m ∈ ms → returns (is_member_away_on (id m) current) s true) →
  returns (scan (length ms) ms current pos) s None.
Proof.
  intros Hpos Hall.
  destruct (scan_returns (length ms) ms current s pos Hpos)
    as ([[c p]|] & Hr & Hpost); [|exact Hr].
  destruct Hpost as (t & _ & Hat & Hnot & _).
  pose proof (returns_inj _ _ _ _ Hnot (Hall c (at_offset_elem _ _ _ _ Hat))).
  discriminate.
Qed.

(** C5: on a cadence date that is neither frozen nor overridden, when
    every member is away the cycle assigns nobody and leaves the pointer
    as it found it, and the date, a date of the calendar like the start
    date, resolves to nobody; and whenever the
    scan assigns a member, that member sits at an index [idx] reached
    from the pointer over members who are all away, is not away, and the
    pointer becomes [(idx + 1) mod N]. *)
Theorem absence_scan_pointer s k pos :
  returns (is_global_holiday (cadence s k)) s false →
  overrides s !! cadence s k = None →
  (pos < length (members s))%nat →
  ((∀ m, m ∈ members s →
         returns (is_member_away_on (id m) (cadence s k)) s true) →
   returns (duty_cycle (members s) (cadence s k) pos) s (None, pos)
   ∧ (is_date (start_date s) → is_date (cadence s k) →
      returns (get_duty_member (cadence s k)) s None)
   ∧ pointer_at s (S k) = pointer_at s k)
  ∧ (∀ m pos',
       returns (duty_cycle (members s) (cadence s k) pos) s (Some m, pos') →
       ∃ t idx,
         (t < length (members s))%nat
         ∧ idx = ((pos + t) mod length (members s))%nat
         ∧ members s !! idx = Some m
         ∧ returns (is_member_away_on (id m) (cadence s k)) s false
         ∧ (∀ j m', (j < t)%nat →
              members s !! ((pos + j) mod length (members s))%nat = Some m' →
              returns (is_member_away_on (id m') (cadence s k)) s true)
         ∧ pos' = ((idx + 1) mod length (members s))%nat).
Proof.
  intros Hh Ho Hpos. split.
  - intros Hall.
    assert (Hc : ∀ p, (p < length (members s))%nat →
      returns (duty_cycle (members s) (cadence s k) p) s (None, p)).
    { intros p Hp.
      apply (duty_cycle_scan s (members s) (cadence s k) p None Hh Ho).
      now apply scan_all_away. }
    assert (Hne : members s ≠ []).
    { intros E. rewrite E in Hpos. cbn in Hpos. lia. }
    pose proof (Hc _ (pointer_at_lt s k Hne)) as Hk.
    split; [now apply Hc | split].
    + intros Hstart Hday.
      pose proof (get_duty_member_cadence s k Hne Hstart Hday) as H.
      now rewrite (cycle_out_returns _ _ _ _ Hk) in H.
    + cbn [pointer_at]. now rewrite (cycle_out_returns _ _ _ _ Hk).
  - intros m pos' Hc.
    destruct (scan_returns (length (members s)) (members s) (cadence s k)
                s pos Hpos) as (r & Hr & Hpost).
    pose proof (returns_inj _ _ _ _ Hc
                  (duty_cycle_scan s _ _ _ r Hh Ho Hr)) as E.
    destruct r as [[c p]|]; [|discriminate E].
    injection E as -> ->.
    destruct Hpost as (t & Ht & Hat & Hnot & Hbefore & ->).
    exists t, ((pos + t) mod length (members s))%nat.
    repeat split; try done.
    now rewrite Nat.Div0.add_mod_idemp_l.
Qed.

Lemma absence_scan_pointer_witness :
  (returns (duty_cycle (members Sample.all_away) (ymd 2025 12 8) 1)
           Sample.all_away (None, 1%nat)
   ∧ returns (get_duty_member (ymd 2025 12 8)) Sample.all_away None
   ∧ pointer_at Sample.all_away 2 = pointer_at Sample.all_away 1)
  ∧ ∃ t idx,
      (t < 3)%nat ∧ idx = ((1 + t) mod 3)%nat
      ∧ members Sample.b_away !! idx = Some Sample.C
      ∧ 0%nat = ((idx + 1) mod 3)%nat.
Proof.
  split.
  - destruct (absence_scan_pointer Sample.all_away 1 1) as [H _];
      [reflexivity | reflexivity | cbn; lia |].
    destruct H as (Hc & Hg & Hp).
    { intros m Hm. unfold Sample.all_away in Hm. cbn [members] in Hm.
      repeat (apply elem_of_cons in Hm as [-> | Hm]); try reflexivity.
      now apply elem_of_nil in Hm. }
    split; [exact Hc | split; [apply Hg; in_calendar | exact Hp]].
  - destruct (absence_scan_pointer Sample.b_away 1 1) as [_ H];
      [reflexivity | reflexivity | cbn; lia |].
    destruct (H Sample.C 0%nat eq_refl)
      as (t & idx & Ht & Hidx & Hm & _ & _ & Hp).
    exists t, idx. auto.
Defined.

(** ** Holidays *)

(** What a cycle computes depends on the state only through the members,
    the holiday test, the override entry and the members' absence on the
    date. *)
Section Extensionality.
Variables (s s' : State) (ms : list Member) (current current' : date).
Hypothesis same_away : ∀ m, m ∈ ms →
  fst (is_member_away_on (id m) current s)
  = fst (is_member_away_on (id m) current' s').

Lemma scan_ext n : ∀ idx,
  fst (scan n ms current idx s) = fst (scan n ms current' idx s').
Proof.
  induction n as [|n IH]; intros idx; [reflexivity|]. cbn [scan].
  destruct (ms !! idx) as [c|] eqn:Hc.
  - step_with (index_returns ms idx c s Hc).
    step_with (index_returns ms idx c s' Hc).
    pose proof (same_away c (list_elem_of_lookup_2 _ _ _ Hc)) as Ha.
    pose proof (is_member_away_on_returns (id c) current s) as H1.
    pose proof (is_member_away_on_returns (id c) current' s') as H2.
    rewrite H1, H2 in Ha. cbn [fst] in Ha. injection Ha as Ha.
    step_with H1. step_with H2. rewrite Ha.
    destruct (existsb (day_in_range current') _); cbn [negb];
      [apply IH | reflexivity].
  - unfold bind, index. now rewrite Hc.
Qed.

Hypothesis same_members : members s = members s'.
Hypothesis same_holiday :
  fst (is_global_holiday current s) = fst (is_global_holiday current' s').
Hypothesis same_override : overrides s !! current = overrides s' !! current'.

Lemma duty_cycle_ext pos :
  fst (duty_cycle ms current pos s) = fst (duty_cycle ms current' pos s').
Proof.
  unfold duty_cycle.
  pose proof (is_global_holiday_returns current s) as H1.
  pose proof (is_global_holiday_returns current' s') as H2.
  pose proof same_holiday as Hh. rewrite H1, H2 in Hh. cbn [fst] in Hh.
  injection Hh as Hh. step_with H1. step_with H2. rewrite Hh.
  destruct (existsb (day_in_range current') _); [reflexivity|].
  step_with (returns_gets overrides s).
  step_with (returns_gets overrides s'). rewrite same_override.
  destruct (overrides s' !! current') as [uid|].
  - step_with (get_member_by_id_returns uid s).
    step_with (get_member_by_id_returns uid s').
    now rewrite same_members.
  - pose proof (scan_ext (length ms) pos) as Hs.
    unfold bind. destruct (scan _ _ current _ s) as [r1 s1].
    destruct (scan _ _ current' _ s') as [r2 s2].
    cbn [fst] in Hs. subst r2.
    destruct r1 as [[[c p]|]| |]; reflexivity.
Qed.
End Extensionality.

Lemma cycle_out_ext s s' current current' pos :
  (∀ m, m ∈ members s →
        fst (is_member_away_on (id m) current s)
        = fst (is_member_away_on (id m) current' s')) →
  members s = members s' →
  fst (is_global_holiday current s) = fst (is_global_holiday current' s') →
  overrides s !! current = overrides s' !! current' →
  cycle_out s current pos = cycle_out s' current' pos.
Proof.
  intros Ha Hm Hh Ho. unfold cycle_out.
  rewrite (duty_cycle_ext s s' (members s) current current' Ha Hm Hh Ho pos).
  now rewrite Hm.
Qed.

Lemma away_same_ranges s s' uid d :
  away_ranges s' = away_ranges s →
  fst (is_member_away_on uid d s) = fst (is_member_away_on uid d s').
Proof.
  intros E.
  rewrite (is_member_away_on_returns uid d s),
          (is_member_away_on_returns uid d s').
  now rewrite E.
Qed.

Lemma holiday_lifted_pointer s s' k :
  holiday_lifted s s' k →
  ∀ j, (j ≤ k)%nat → pointer_at s' j = pointer_at s j.
Proof.
  intros (Hs & Hm & Ho & Ha & Hbefore & _).
  assert (Hcad : ∀ j, cadence s' j = cadence s j).
  { intros j. unfold cadence. now rewrite Hs. }
  induction j as [|j IH]; intros Hj; [reflexivity|].
  cbn [pointer_at]. rewrite IH, Hcad by lia. f_equal.
  apply cycle_out_ext.
  - intros m _. symmetry. now apply away_same_ranges.
  - exact Hm.
  - apply Hbefore. lia.
  - now rewrite Ho.
Qed.

(** Amended C4: a cadence date inside a holiday interval resolves to
    nobody and its cycle leaves the pointer unchanged; hence, if the next
    cadence date is not frozen, carries the same override entry and finds
    every member away or present as on the frozen date, the member it gets
    is the one the frozen date gets in a state that differs by holidays
    only, where the earlier cadence dates are frozen alike and the frozen
    date is not. The dates resolved are dates of the calendar, like the
    start date. *)
Theorem holiday_freezes_pointer s k :
  returns (is_global_holiday (cadence s k)) s true →
  (is_date (start_date s) → is_date (cadence s k) →
   returns (get_duty_member (cadence s k)) s None)
  ∧ (∀ pos, returns (duty_cycle (members s) (cadence s k) pos) s (None, pos))
  ∧ pointer_at s (S k) = pointer_at s k
  ∧ ∀ s',
      holiday_lifted s s' k →
      returns (is_global_holiday (cadence s (S k))) s false →
      overrides s !! cadence s (S k) = overrides s !! cadence s k →
      (∀ m, m ∈ members s →
            fst (is_member_away_on (id m) (cadence s (S k)) s)
            = fst (is_member_away_on (id m) (cadence s k) s)) →
      is_date (start_date s) →
      is_date (cadence s (S k)) →
      ∃ a, returns (get_duty_member (cadence s (S k))) s a
           ∧ returns (get_duty_member (cadence s k)) s' a.
Proof.
  intros Hh.
  assert (Hc : ∀ pos,
    returns (duty_cycle (members s) (cadence s k) pos) s (None, pos))
    by (intros pos; now apply duty_cycle_holiday).
  assert (Hp : pointer_at s (S k) = pointer_at s k).
  { cbn [pointer_at]. now rewrite (cycle_out_returns _ _ _ _ (Hc _)). }
  split; [|split; [exact Hc | split; [exact Hp|]]].
  - intros Hstart Hday. destruct (decide (members s = [])) as [He|Hne].
    { now apply get_duty_member_no_members. }
    pose proof (get_duty_member_cadence s k Hne Hstart Hday) as H.
    now rewrite (cycle_out_returns _ _ _ _ (Hc _)) in H.
  - intros s' Hl Hnext Ho Ha Hstart Hday.
    pose proof (holiday_lifted_pointer s s' k Hl k (Nat.le_refl k)) as Hpk.
    destruct Hl as (Hs & Hm & Hov & Haw & _ & Hfree).
    destruct (decide (members s = [])) as [He|Hne].
    { exists None. split; apply get_duty_member_no_members; congruence. }
    exists (fst (cycle_out s (cadence s (S k)) (pointer_at s (S k)))).
    split; [now apply get_duty_member_cadence|].
    assert (Hne' : members s' ≠ []) by congruence.
    assert (Hcad : cadence s' k = cadence s k)
      by (unfold cadence; now rewrite Hs).
    assert (Hk : is_date (cadence s k)).
    { unfold is_date, cadence in *. lia. }
    pose proof (get_duty_member_cadence s' k Hne') as H.
    rewrite Hs, Hcad in H. specialize (H Hstart Hk).
    rewrite Hpk, <- Hp in H.
    rewrite (cycle_out_ext s s' (cadence s (S k)) (cadence s k)).
    + exact H.
    + intros m Hin. rewrite (Ha m Hin). now apply away_same_ranges.
    + now symmetry.
    + now rewrite Hnext, Hfree.
    + now rewrite Ho, Hov.
Qed.

Lemma holiday_freezes_pointer_witness :
  returns (get_duty_member (ymd 2025 12 8)) Sample.frozen None
  ∧ pointer_at Sample.frozen 2 = pointer_at Sample.frozen 1
  ∧ ∃ a, returns (get_duty_member (ymd 2025 12 15)) Sample.frozen a
         ∧ returns (get_duty_member (ymd 2025 12 8)) Sample.plain a.
Proof.
  destruct (holiday_freezes_pointer Sample.frozen 1 eq_refl)
    as (Hnone & _ & Hp & Hnext).
  split; [apply Hnone; in_calendar | split; [exact Hp|]].
  apply (Hnext Sample.plain).
  - repeat (split; [reflexivity|]). split; [|reflexivity].
    intros [|j] Hj; [reflexivity | lia].
  - reflexivity.
  - reflexivity.
  - intros m _. reflexivity.
  - in_calendar.
  - in_calendar.
Defined.

(** C4 as stated fails: in [Sample.thaw] December 1st is frozen and
    December 8th is not, yet December 8th gets B (A is away that day)
    while December 1st, had the holiday not existed, would get A. *)
Lemma holiday_freeze_counterexample :
  cadence Sample.thaw 0 = ymd 2025 12 1
  ∧ cadence Sample.thaw 1 = ymd 2025 12 8
  ∧ returns (is_global_holiday (ymd 2025 12 1)) Sample.thaw true
  ∧ returns (is_global_holiday (ymd 2025 12 8)) Sample.thaw false
  ∧ returns (get_duty_member (ymd 2025 12 8)) Sample.thaw (Some Sample.B)
  ∧ returns (get_duty_member (ymd 2025 12 1)) Sample.thaw_no_holiday
            (Some Sample.A)
  ∧ fst (get_duty_member (ymd 2025 12 8) Sample.thaw)
    ≠ fst (get_duty_member (ymd 2025 12 1) Sample.thaw_no_holiday).
Proof.
  repeat (split; [reflexivity|]). vm_compute. discriminate.
Qed.

(** ** The swap callback *)

Section Accept.
Variables (s : State) (duty_date : date) (absent_id volunteer_id : Z).

Lemma volunteer_callback_stranger :
  returns (get_member_by_id volunteer_id) s None →
  volunteer_callback duty_date absent_id volunteer_id (Some s)
  = (Ok NotInList, Some s).
Proof.
  intros Hv. unfold volunteer_callback, bind, load_state, call.
  now rewrite Hv.
Qed.

Lemma volunteer_callback_taken vm already_id :
  returns (get_member_by_id volunteer_id) s (Some vm) →
  overrides s !! duty_date = Some already_id →
  volunteer_callback duty_date absent_id volunteer_id (Some s)
  = (Ok (AlreadyAgreed duty_date
           (name_of (find (λ m, bool_decide (id m = already_id))
                          (members s)) already_id)),
     Some s).
Proof.
  intros Hv Ho. unfold volunteer_callback, bind, load_state, call.
  rewrite Hv, Ho. now rewrite (get_member_by_id_returns already_id s).
Qed.

Lemma volunteer_callback_accept vm :
  returns (get_member_by_id volunteer_id) s (Some vm) →
  overrides s !! duty_date = None →
  volunteer_callback duty_date absent_id volunteer_id (Some s)
  = (Ok (Swapped duty_date
           (name_of (find (λ m, bool_decide (id m = absent_id))
                          (members s)) absent_id)
           (label vm)),
     Some (accepted s duty_date absent_id volunteer_id)).
Proof.
  intros Hv Ho. unfold volunteer_callback, bind, load_state, call.
  rewrite Hv, Ho.
  unfold set_override, ensure_penalty_entry, modify, add_penalty,
    set_overrides, set_penalties, save_state, ret, accepted.
  cbn [penalties overrides members start_date global_holidays
       away_ranges notify_chats].
  destruct (penalties s !! absent_id) as [n|] eqn:Hp; cbn [default].
  - rewrite Hp. reflexivity.
  - rewrite lookup_insert_eq, insert_insert_eq. reflexivity.
Qed.
End Accept.

(** C6: when the date has no override and the volunteer is a member, the
    callback succeeds and saves a state where the date is overridden by
    the volunteer and the absent member's penalty is one more than before,
    counted from 0 if there was no entry; any later callback for the same
    date leaves the saved state as it is, and one by a member is answered
    with the conflict naming the first volunteer. *)
Theorem accept_swap_ledger s d absent_id volunteer_id vm :
  overrides s !! d = None →
  returns (get_member_by_id volunteer_id) s (Some vm) →
  ∃ s' who,
    volunteer_callback d absent_id volunteer_id (Some s)
    = (Ok (Swapped d who (label vm)), Some s')
    ∧ overrides s' = <[d := volunteer_id]> (overrides s)
    ∧ penalties s'
      = <[absent_id := default 0 (penalties s !! absent_id) + 1]>
          (penalties s)
    ∧ members s' = members s
    ∧ ∀ absent2 volunteer2,
        ∃ r, volunteer_callback d absent2 volunteer2 (Some s')
             = (Ok r, Some s')
             ∧ (r = NotInList ∨ r = AlreadyAgreed d (Label (label vm)))
             ∧ (∀ vm2, returns (get_member_by_id volunteer2) s' (Some vm2) →
                       r = AlreadyAgreed d (Label (label vm))).
Proof.
  intros Ho Hv. eexists _, _.
  split; [apply (volunteer_callback_accept s d absent_id volunteer_id vm Hv Ho)|].
  split; [reflexivity | split; [reflexivity | split; [reflexivity|]]].
  intros absent2 volunteer2.
  set (s' := accepted s d absent_id volunteer_id).
  assert (Ho' : overrides s' !! d = Some volunteer_id)
    by apply lookup_insert_eq.
  assert (Hconflict : ∀ vm2,
    returns (get_member_by_id volunteer2) s' (Some vm2) →
    volunteer_callback d absent2 volunteer2 (Some s')
    = (Ok (AlreadyAgreed d (Label (label vm))), Some s')).
  { intros vm2 Hv2.
    rewrite (volunteer_callback_taken s' d absent2 volunteer2 vm2
               volunteer_id Hv2 Ho').
    pose proof Hv as Hv'. unfold returns in Hv'.
    rewrite (get_member_by_id_returns volunteer_id s) in Hv'.
    injection Hv' as Hv'. cbn [members s' accepted]. now rewrite Hv'. }
  pose proof (get_member_by_id_returns volunteer2 s') as Hg.
  destruct (find _ _) as [vm2|] in Hg.
  - exists (AlreadyAgreed d (Label (label vm))).
    split; [now apply (Hconflict vm2) | split; [now right | done]].
  - exists NotInList.
    split; [now apply volunteer_callback_stranger | split; [now left|]].
    intros vm2 Hv2. pose proof (returns_inj _ _ _ _ Hg Hv2). discriminate.
Qed.

Lemma accept_swap_ledger_witness :
  ∃ s' who,
    volunteer_callback (ymd 2025 12 8) 2 3 (Some Sample.plain)
    = (Ok (Swapped (ymd 2025 12 8) who "C"), Some s')
    ∧ overrides s' = {[ ymd 2025 12 8 := 3 ]}
    ∧ penalties s' = {[ 2 := 1 ]}
    ∧ members s' = [Sample.A; Sample.B; Sample.C]
    ∧ ∀ absent2 volunteer2,
        ∃ r, volunteer_callback (ymd 2025 12 8) absent2 volunteer2 (Some s')
             = (Ok r, Some s')
             ∧ (r = NotInList
                ∨ r = AlreadyAgreed (ymd 2025 12 8) (Label "C"))
             ∧ (∀ vm2, returns (get_member_by_id volunteer2) s' (Some vm2) →
                       r = AlreadyAgreed (ymd 2025 12 8) (Label "C")).
Proof.
  exact (accept_swap_ledger Sample.plain (ymd 2025 12 8) 2 3 Sample.C
           eq_refl eq_refl).
Defined.

(** C10: the callback does not compare the volunteer with the absent
    member: pressed by the absent member themself, a member, for a date
    without override, it succeeds, records the override in their own name
    and still adds one to their own penalty. *)
Theorem self_volunteer_accepted s d user_id m :
  overrides s !! d = None →
  returns (get_member_by_id user_id) s (Some m) →
  ∃ s',
    volunteer_callback d user_id user_id (Some s)
    = (Ok (Swapped d (Label (label m)) (label m)), Some s')
    ∧ overrides s' !! d = Some user_id
    ∧ penalties s' !! user_id
      = Some (default 0 (penalties s !! user_id) + 1).
Proof.
  intros Ho Hv. eexists. split; [|split].
  - rewrite (volunteer_callback_accept s d user_id user_id m Hv Ho).
    pose proof Hv as Hv'. unfold returns in Hv'.
    rewrite (get_member_by_id_returns user_id s) in Hv'.
    injection Hv' as ->. reflexivity.
  - apply lookup_insert_eq.
  - apply lookup_insert_eq.
Qed.

Lemma self_volunteer_accepted_witness :
  ∃ s',
    volunteer_callback (ymd 2025 12 8) 2 2 (Some Sample.plain)
    = (Ok (Swapped (ymd 2025 12 8) (Label "B") "B"), Some s')
    ∧ overrides s' !! ymd 2025 12 8 = Some 2
    ∧ penalties s' !! 2 = Some 1.
Proof.
  exact (self_volunteer_accepted Sample.plain (ymd 2025 12 8) 2 Sample.B
           eq_refl eq_refl).
Defined.

(** ** Purity, and the end of the calendar *)

Lemma holiday_same_list s s' d :
  global_holidays s = global_holidays s' →
  fst (is_global_holiday d s) = fst (is_global_holiday d s').
Proof.
  intros E.
  rewrite (is_global_holiday_returns d s), (is_global_holiday_returns d s').
  now rewrite E.
Qed.

(** The loop reads the state through its cycles only. *)
Lemma duty_loop_ext s s' day :
  members s = members s' →
  overrides s = overrides s' →
  global_holidays s = global_holidays s' →
  away_ranges s' = away_ranges s →
  ∀ fuel pos current, (pos < length (members s))%nat →
    fst (duty_loop fuel (members s) day pos current s)
    = fst (duty_loop fuel (members s) day pos current s').
Proof.
  intros Hm Ho Hh Ha.
  induction fuel as [|fuel IH]; intros pos current Hpos; cbn [duty_loop];
    destruct (decide (current ≤ day)); try reflexivity.
  destruct (duty_cycle_total s (members s) current pos Hpos)
    as (a & p & Hc & Hp).
  destruct (duty_cycle_total s' (members s) current pos Hpos)
    as (a' & p' & Hc' & _).
  assert (E : (a, p) = (a', p')).
  { assert (Hov : overrides s !! current = overrides s' !! current)
      by now rewrite Ho.
    pose proof (duty_cycle_ext s s' (members s) current current
                  (λ m _, away_same_ranges s s' (id m) current Ha)
                  Hm (holiday_same_list s s' current Hh) Hov pos) as E.
    rewrite Hc, Hc' in E. cbn [fst] in E. now injection E as -> ->. }
  injection E as <- <-. step_with Hc. step_with Hc'.
  destruct (decide (current = day)); [reflexivity|].
  unfold bind at 1 2. rewrite !add_days_run.
  destruct (decide (0 < current + 7 ≤ MAXORDINAL)); [|reflexivity].
  now apply IH.
Qed.

Lemma get_duty_member_ext s s' day :
  start_date s = start_date s' →
  members s = members s' →
  overrides s = overrides s' →
  global_holidays s = global_holidays s' →
  away_ranges s' = away_ranges s →
  fst (get_duty_member day s) = fst (get_duty_member day s').
Proof.
  intros Hs Hm Ho Hh Ha. unfold get_duty_member.
  step_with (returns_gets members s). step_with (returns_gets members s').
  rewrite <- Hm. destruct (members s) as [|m ms] eqn:E; [reflexivity|].
  unfold get_start_date.
  step_with (returns_gets start_date s).
  step_with (returns_gets start_date s'). rewrite <- Hs.
  destruct (decide (day < start_date s)); [reflexivity|].
  rewrite <- E. apply duty_loop_ext; try done.
  - now rewrite E.
  - rewrite E. cbn. lia.
Qed.

(** C8: resolution leaves the snapshot as it found it, whether it returns
    or raises at the end of the calendar; a second call on the snapshot
    handed back has the same outcome; and the outcome is a function of
    the start date, the members, the overrides, the holidays and the
    absence ranges alone: no count kept elsewhere in the state, such as
    the penalties, has a part in it. *)
Theorem resolve_deterministic_and_pure day s :
  ∃ r, get_duty_member day s = (r, s)
       ∧ ((∃ a, r = Ok a) ∨ r = Raise OverflowError)
       ∧ (∀ r1 s1, get_duty_member day s = (r1, s1) →
                   get_duty_member day s1 = (r1, s1))
       ∧ (∀ s', start_date s' = start_date s →
                members s' = members s →
                overrides s' = overrides s →
                global_holidays s' = global_holidays s →
                away_ranges s' = away_ranges s →
                fst (get_duty_member day s') = r).
Proof.
  destruct (get_duty_member_outcome day s) as (r & Hr & Hcase & _).
  exists r. split; [exact Hr | split; [|split]].
  - destruct Hcase as [(a & Ha & _)|Ha]; subst r; eauto.
  - intros r1 s1 H. rewrite Hr in H. injection H as <- <-. exact Hr.
  - intros s' Hs Hm Ho Hh Ha.
    rewrite <- (get_duty_member_ext s s' day) by done. now rewrite Hr.
Qed.

Lemma resolve_deterministic_and_pure_witness :
  get_duty_member (ymd 2025 12 8) Sample.plain
  = (Ok (Some Sample.B), Sample.plain)
  ∧ fst (get_duty_member (ymd 2025 12 8) Scenario.settled)
    = Ok (Some Sample.B).
Proof.
  destruct (resolve_deterministic_and_pure (ymd 2025 12 8) Sample.plain)
    as (r & Hr & _ & _ & Hfun).
  assert (E : r = Ok (Some Sample.B)).
  { pose proof (eq_trans (eq_sym Hr) eq_refl
                : (r, Sample.plain) = (Ok (Some Sample.B), Sample.plain)) as E.
    now injection E. }
  split; [now rewrite Hr, E|].
  rewrite <- E. now apply Hfun.
Defined.

(** C9 at the end of the calendar: December 31st, 9999 is not on the
    cadence of a rotation started on December 27th, and resolving it does
    not return nobody: the step of seven days past the last cadence date
    leaves the calendar and [OverflowError] is raised. *)
Lemma off_cadence_overflow_at_calendar_end :
  is_date (start_date Sample.last_week)
  ∧ is_date (ymd 9999 12 31)
  ∧ (ymd 9999 12 31 - start_date Sample.last_week) mod 7 ≠ 0
  ∧ get_duty_member (ymd 9999 12 31) Sample.last_week
    = (Raise OverflowError, Sample.last_week).
Proof.
  split; [in_calendar | split; [in_calendar | split]].
  - vm_compute. discriminate.
  - reflexivity.
Qed.

(** Away from the end of the calendar an off-cadence date does resolve
    to nobody, whatever the state holds. *)
Example off_cadence_nobody :
  overrides Sample.swapped !! ymd 2025 12 8 = Some 3
  ∧ returns (get_duty_member (ymd 2025 12 10)) Sample.swapped None.
Proof.
  split; [reflexivity|].
  apply get_duty_member_off_cadence; vm_compute; try discriminate.
  reflexivity.
Qed.

(** December 31st, 9999 is [date.max]. *)
Example last_day_of_calendar : ymd 9999 12 31 = MAXORDINAL.
Proof. reflexivity. Qed.

(** ** The worked examples of the rotation *)

(** December 1st, 2025 is a Monday. *)
Example start_is_monday : weekday (ymd 2025 12 1) = 0.
Proof. reflexivity. Qed.

(** A frozen week: nobody on December 8th, then B the week after. *)
Example frozen_week :
  returns (get_duty_member (ymd 2025 12 8)) Sample.frozen None
  ∧ returns (get_duty_member (ymd 2025 12 15)) Sample.frozen (Some Sample.B).
Proof. split; reflexivity. Qed.

(** B away on December 8th: C takes the turn, then A follows C. *)
Example skipped_member :
  returns (get_duty_member (ymd 2025 12 8)) Sample.b_away (Some Sample.C)
  ∧ returns (get_duty_member (ymd 2025 12 15)) Sample.b_away (Some Sample.A).
Proof. split; reflexivity. Qed.

(** An override by C on December 8th: B's turn is consumed, C follows. *)
Example overridden_week :
  returns (get_duty_member (ymd 2025 12 8)) Sample.swapped (Some Sample.C)
  ∧ returns (get_duty_member (ymd 2025 12 15)) Sample.swapped (Some Sample.C).
Proof. split; reflexivity. Qed.

(** Without a file the callback finds no member and only writes the
    default state. *)
Example callback_without_file :
  volunteer_callback (ymd 2025 12 8) 2 3 None
  = (Ok NotInList, Some DEFAULT_STATE).
Proof. reflexivity. Qed.

(** * Further properties of the resolver *)

Lemma get_member_by_id_Some uid s m :
  returns (get_member_by_id uid) s (Some m) → m ∈ members s ∧ id m = uid.
Proof.
  intros H. pose proof (returns_inj _ _ _ _ H (get_member_by_id_returns uid s))
    as E. symmetry in E. apply find_some in E as [Hin Hid].
  split; [now apply list_elem_of_In | now apply bool_decide_eq_true in Hid].
Qed.

(** Somebody is assigned only on a date of the cadence, and only when
    there are members. *)
Lemma assigned_on_cadence d s m :
  returns (get_duty_member d) s (Some m) →
  members s ≠ [] ∧ ∃ k, d = cadence s k.
Proof.
  intros H.
  assert (Hne : members s ≠ []).
  { intros E. pose proof (returns_inj _ _ _ _ H
      (get_duty_member_no_members d s E)). discriminate. }
  split; [exact Hne|].
  destruct (decide (d < start_date s)) as [Hlt|Hge].
  { pose proof (returns_inj _ _ _ _ H
      (get_duty_member_before_start d s Hlt)). discriminate. }
  destruct (decide ((d - start_date s) mod 7 = 0)) as [Hmod|Hmod].
  - exists (Z.to_nat ((d - start_date s) / 7)). unfold cadence.
    rewrite Z2Nat.id by (apply Z.div_pos; lia).
    pose proof (Z.div_mod (d - start_date s) 7 ltac:(lia)). lia.
  - destruct (get_duty_member_outcome d s) as (r & Hr & Hcase & _).
    unfold returns in H. rewrite Hr in H. injection H as ->.
    destruct Hcase as [(a & [= <-] & Hoff)|[=]]. now specialize (Hoff Hmod).
Qed.

(** Where the member a cycle assigns comes from. *)
Lemma duty_cycle_assigned s current pos m pos' :
  (pos < length (members s))%nat →
  returns (duty_cycle (members s) current pos) s (Some m, pos') →
  returns (is_global_holiday current) s false
  ∧ ((∃ uid, overrides s !! current = Some uid
             ∧ returns (get_member_by_id uid) s (Some m))
     ∨ (overrides s !! current = None
        ∧ m ∈ members s
        ∧ returns (is_member_away_on (id m) current) s false)).
Proof.
  intros Hpos Hc.
  pose proof (is_global_holiday_returns current s) as Hh.
  destruct (existsb _ _) in Hh.
  { pose proof (returns_inj _ _ _ _ Hc
      (duty_cycle_holiday s _ _ pos Hh)). discriminate. }
  split; [exact Hh|].
  destruct (overrides s !! current) as [uid|] eqn:Ho.
  - left. exists uid. split; [reflexivity|].
    pose proof (returns_inj _ _ _ _ Hc
      (duty_cycle_override s _ _ pos uid _ Hh Ho
         (get_member_by_id_returns uid s))) as E.
    injection E as E _. rewrite E. apply get_member_by_id_returns.
  - right. split; [reflexivity|].
    destruct (scan_returns (length (members s)) (members s) current s pos
                Hpos) as (r & Hr & Hpost).
    pose proof (returns_inj _ _ _ _ Hc
      (duty_cycle_scan s _ _ _ r Hh Ho Hr)) as E.
    destruct r as [[c p]|]; [|discriminate E]. injection E as -> ->.
    destruct Hpost as (t & _ & Hat & Hnot & _).
    split; [eapply at_offset_elem, Hat | exact Hnot].
Qed.

Lemma resolve_assigned s d m :
  returns (get_duty_member d) s (Some m) →
  returns (is_global_holiday d) s false
  ∧ ((∃ uid, overrides s !! d = Some uid
             ∧ returns (get_member_by_id uid) s (Some m))
     ∨ (overrides s !! d = None
        ∧ m ∈ members s
        ∧ returns (is_member_away_on (id m) d) s false)).
Proof.
  intros H. destruct (assigned_on_cadence d s m H) as (Hne & k & ->).
  pose proof (get_duty_member_cadence_inv s k _ Hne H) as E.
  destruct (cycle_out_spec s (cadence s k) (pointer_at s k)
              (pointer_at_lt s k Hne)) as [Hc _].
  destruct (cycle_out s (cadence s k) (pointer_at s k)) as [a p].
  cbn [fst] in E. subst a.
  exact (duty_cycle_assigned s _ _ m p (pointer_at_lt s k Hne) Hc).
Qed.

(** X1: whoever [get_duty_member] returns is an element of the members
    list, and the date is a cadence date that no holiday covers. *)
Theorem assigned_is_listed_member s d m :
  returns (get_duty_member d) s (Some m) →
  m ∈ members s
  ∧ (∃ k, d = cadence s k)
  ∧ returns (is_global_holiday d) s false.
Proof.
  intros H. destruct (resolve_assigned s d m H) as (Hh & Hsrc).
  destruct (assigned_on_cadence d s m H) as (_ & Hk).
  split; [|split; [exact Hk | exact Hh]].
  destruct Hsrc as [(uid & _ & Hg) | (_ & Hin & _)]; [|exact Hin].
  now apply (get_member_by_id_Some uid).
Qed.

Lemma assigned_is_listed_member_witness :
  Sample.C ∈ members Sample.b_away
  ∧ (∃ k, ymd 2025 12 8 = cadence Sample.b_away k)
  ∧ returns (is_global_holiday (ymd 2025 12 8)) Sample.b_away false.
Proof.
  exact (assigned_is_listed_member Sample.b_away (ymd 2025 12 8) Sample.C
           eq_refl).
Defined.

(** X2: on a date without override, the member [get_duty_member] returns
    is not away that day; a member who is away is only ever returned
    through an override that carries their id. *)
Theorem assigned_not_away_unless_overridden s d m :
  returns (get_duty_member d) s (Some m) →
  (overrides s !! d = None →
   returns (is_member_away_on (id m) d) s false)
  ∧ (returns (is_member_away_on (id m) d) s true →
     overrides s !! d = Some (id m)).
Proof.
  intros H. destruct (resolve_assigned s d m H) as (_ & Hsrc). split.
  - intros Ho. destruct Hsrc as [(uid & Ho' & _) | (_ & _ & Hnot)];
      [congruence | exact Hnot].
  - intros Haway. destruct Hsrc as [(uid & Ho & Hg) | (_ & _ & Hnot)].
    + destruct (get_member_by_id_Some uid s m Hg) as [_ <-]. exact Ho.
    + pose proof (returns_inj _ _ _ _ Haway Hnot). discriminate.
Qed.

Lemma assigned_not_away_unless_overridden_witness :
  (overrides Sample.b_away !! ymd 2025 12 8 = None →
   returns (is_member_away_on 3 (ymd 2025 12 8)) Sample.b_away false)
  ∧ (returns (is_member_away_on 3 (ymd 2025 12 8)) Sample.b_away true →
     overrides Sample.b_away !! ymd 2025 12 8 = Some 3).
Proof.
  exact (assigned_not_away_unless_overridden Sample.b_away (ymd 2025 12 8)
           Sample.C eq_refl).
Defined.

Lemma resolve_override s k uid a :
  members s ≠ [] →
  is_date (start_date s) →
  is_date (cadence s k) →
  returns (is_global_holiday (cadence s k)) s false →
  overrides s !! cadence s k = Some uid →
  returns (get_member_by_id uid) s a →
  returns (get_duty_member (cadence s k)) s a.
Proof.
  intros Hne Hstart Hday Hh Ho Hg.
  pose proof (get_duty_member_cadence s k Hne Hstart Hday) as H.
  now rewrite (cycle_out_returns _ _ _ _
                 (duty_cycle_override s _ _ (pointer_at s k) uid a
                    Hh Ho Hg)) in H.
Qed.

(** X3: on a cadence date that is not frozen, a date of the calendar like
    the start date, an override naming a member gives that member the
    duty whatever the absence ranges say, also when the member is
    recorded as away that very day. *)
Theorem override_beats_absence s k uid m :
  is_date (start_date s) →
  is_date (cadence s k) →
  returns (is_global_holiday (cadence s k)) s false →
  overrides s !! cadence s k = Some uid →
  returns (get_member_by_id uid) s (Some m) →
  returns (get_duty_member (cadence s k)) s (Some m).
Proof.
  intros Hstart Hday Hh Ho Hg. apply (resolve_override s k uid); try done.
  destruct (get_member_by_id_Some uid s m Hg) as [Hin _].
  intros E. rewrite E in Hin. now apply elem_of_nil in Hin.
Qed.

(** *** Resolution only looks back *)

Lemma agree_upto_cycle s s' k j pos :
  agree_upto s s' k → (j ≤ k)%nat →
  cycle_out s' (cadence s j) pos = cycle_out s (cadence s j) pos.
Proof.
  intros (Hs & Hm & Hag) Hj. destruct (Hag j Hj) as (Hh & Ho & Ha).
  apply cycle_out_ext; try done.
  intros m Hin. apply Ha. now rewrite <- Hm.
Qed.

Lemma agree_upto_pointer s s' k :
  agree_upto s s' k →
  ∀ j, (j ≤ S k)%nat → pointer_at s' j = pointer_at s j.
Proof.
  intros Hag. pose proof Hag as (Hs & _ & _).
  induction j as [|j IH]; intros Hj; [reflexivity|].
  cbn [pointer_at]. rewrite IH by lia.
  replace (cadence s' j) with (cadence s j)
    by (unfold cadence; now rewrite Hs).
  f_equal. apply (agree_upto_cycle s s' k); [exact Hag | lia].
Qed.

(** Two states with the same start date take the same steps of seven
    days; where what the target cycle assigns is the same in both, the
    one returns what the other returns. *)
Lemma cadence_transfer s s' k a :
  start_date s' = start_date s →
  members s' = members s →
  fst (cycle_out s' (cadence s k) (pointer_at s' k))
  = fst (cycle_out s (cadence s k) (pointer_at s k)) →
  returns (get_duty_member (cadence s k)) s a →
  returns (get_duty_member (cadence s k)) s' a.
Proof.
  intros Hs Hm Hv Ha.
  destruct (decide (members s = [])) as [He|Hne].
  { pose proof (returns_inj _ _ _ _ Ha
                  (get_duty_member_no_members _ s He)) as ->.
    apply get_duty_member_no_members. congruence. }
  assert (Hne' : members s' ≠ []) by congruence.
  assert (Hcad : cadence s' k = cadence s k)
    by (unfold cadence; now rewrite Hs).
  destruct (get_duty_member_cadence_outcome s k Hne) as (r & Hr & Hok & Hbad).
  destruct (get_duty_member_cadence_outcome s' k Hne')
    as (r' & Hr' & Hok' & _).
  rewrite Hcad in Hr'. rewrite Hs, Hcad in Hok'.
  unfold returns in Ha. rewrite Hr in Ha. injection Ha as ->.
  destruct (decide (k = 0%nat
                    ∨ (0 < start_date s + 7 ∧ cadence s k ≤ MAXORDINAL)))
    as [H|H]; [|now specialize (Hbad H)].
  unfold returns. rewrite Hr', (Hok' H), Hv.
  specialize (Hok H). now injection Hok as <-.
Qed.

Lemma agree_upto_resolve s s' k a :
  agree_upto s s' k →
  returns (get_duty_member (cadence s k)) s a →
  returns (get_duty_member (cadence s k)) s' a.
Proof.
  intros Hag. pose proof Hag as (Hs & Hm & _).
  apply cadence_transfer; try done.
  rewrite (agree_upto_pointer s s' k Hag k) by lia.
  now rewrite (agree_upto_cycle s s' k k _ Hag) by lia.
Qed.

Lemma override_beats_absence_witness :
  returns (is_member_away_on 3 (ymd 2025 12 8)) Scenario.override_away true
  ∧ returns (get_duty_member (ymd 2025 12 8)) Scenario.override_away
            (Some Sample.C).
Proof.
  split; [reflexivity|].
  exact (override_beats_absence Scenario.override_away 1 3 Sample.C
           ltac:(in_calendar) ltac:(in_calendar) eq_refl eq_refl eq_refl).
Defined.

(** X4: resolution of a cadence date only looks back: two states with the
    same start date and members that agree, on every cadence date up to
    that one, on the holiday test, the override entry and each member's
    absence resolve the date alike, whatever they hold for later dates. *)
Theorem resolution_only_looks_back s s' k a :
  agree_upto s s' k →
  returns (get_duty_member (cadence s k)) s a →
  returns (get_duty_member (cadence s k)) s' a.
Proof.
  intros Hag Ha. now apply (agree_upto_resolve s s' k).
Qed.

Lemma resolution_only_looks_back_witness :
  returns (get_duty_member (ymd 2025 12 1)) Sample.frozen (Some Sample.A).
Proof.
  apply (resolution_only_looks_back Sample.plain Sample.frozen 0);
    [|reflexivity].
  split; [reflexivity | split; [reflexivity|]].
  intros j Hj. assert (j = 0%nat) as -> by lia.
  split; [reflexivity | split; [reflexivity|]].
  intros m _. reflexivity.
Defined.

(** * Properties of the handlers *)

Lemma holiday_same s s' d b :
  global_holidays s' = global_holidays s →
  returns (is_global_holiday d) s b → returns (is_global_holiday d) s' b.
Proof.
  intros E H.
  pose proof (returns_inj _ _ _ _ H (is_global_holiday_returns d s)) as ->.
  rewrite <- E. apply is_global_holiday_returns.
Qed.

Lemma get_member_by_id_same s s' uid a :
  members s' = members s →
  returns (get_member_by_id uid) s a → returns (get_member_by_id uid) s' a.
Proof.
  intros E H.
  pose proof (returns_inj _ _ _ _ H (get_member_by_id_returns uid s)) as ->.
  rewrite <- E. apply get_member_by_id_returns.
Qed.

Lemma holiday_never_assigns s d m :
  returns (is_global_holiday d) s true →
  ¬ returns (get_duty_member d) s (Some m).
Proof.
  intros Hh Ha. destruct (resolve_assigned s d m Ha) as (Hno & _).
  pose proof (returns_inj _ _ _ _ Hh Hno). discriminate.
Qed.

Lemma holiday_resolves_none s d :
  0 < start_date s + 7 → d + 7 ≤ MAXORDINAL →
  returns (is_global_holiday d) s true →
  returns (get_duty_member d) s None.
Proof.
  intros Hs Hd Hh.
  destruct (get_duty_member_outcome d s) as (r & Hr & _ & Hroom).
  destruct (Hroom Hs Hd) as [[m|] ->]; [|exact Hr].
  now elim (holiday_never_assigns s d m Hh).
Qed.

Lemma day_in_range_true d f t :
  day_in_range d (mkRange f t) = true ↔ f ≤ d ≤ t.
Proof.
  unfold day_in_range. cbn [from to].
  rewrite andb_true_iff, !bool_decide_eq_true. tauto.
Qed.

Lemma cadence_inj s j k : cadence s j = cadence s k → j = k.
Proof. unfold cadence. lia. Qed.

(** ** Holiday ranges *)

Lemma holidayrange_run user_id d_from d_to s :
  d_from ≤ d_to →
  holidayrange_handler user_id [Some d_from; Some d_to] (Some s)
  = (Ok (HolidayAdded d_from d_to),
     Some (set_global_holidays (λ rs, rs ++ [mkRange d_from d_to]) s)).
Proof.
  intros Hle. unfold holidayrange_handler. cbn [is_admin ADMIN_IDS negb].
  now rewrite decide_False by lia.
Qed.

(** X5: an inverted holiday range is refused before the file is even
    read; an ordered one is saved, after which no date of the range is
    resolved to a member, every date of the range that has a week to
    spare in the calendar resolves to nobody, and the cadence dates
    before the range resolve as they did. *)
Theorem holidayrange_freezes_range user_id d_from d_to :
  (d_to < d_from →
   ∀ w, holidayrange_handler user_id [Some d_from; Some d_to] w
        = (Ok Inverted, w))
  ∧ (d_from ≤ d_to →
     ∀ s, ∃ s',
       holidayrange_handler user_id [Some d_from; Some d_to] (Some s)
       = (Ok (HolidayAdded d_from d_to), Some s')
       ∧ (∀ d m, d_from ≤ d ≤ d_to →
                 ¬ returns (get_duty_member d) s' (Some m))
       ∧ (∀ d, d_from ≤ d ≤ d_to →
               is_date (start_date s) → d + 7 ≤ MAXORDINAL →
               returns (get_duty_member d) s' None)
       ∧ (∀ k a, cadence s k < d_from →
                 returns (get_duty_member (cadence s k)) s a →
                 returns (get_duty_member (cadence s k)) s' a)).
Proof.
  split.
  - intros Hlt w. unfold holidayrange_handler.
    cbn [is_admin ADMIN_IDS negb]. now rewrite decide_True.
  - intros Hle s. eexists. split; [now apply holidayrange_run|].
    set (s' := set_global_holidays _ s).
    assert (Hfrozen : ∀ d, d_from ≤ d ≤ d_to →
                           returns (is_global_holiday d) s' true).
    { intros d Hd. pose proof (is_global_holiday_returns d s') as H.
      cbn [s' set_global_holidays global_holidays] in H.
      rewrite existsb_app in H. cbn [existsb] in H.
      rewrite (proj2 (day_in_range_true d d_from d_to) Hd) in H.
      now rewrite orb_true_r in H. }
    split; [|split].
    + intros d m Hd. now apply holiday_never_assigns, Hfrozen.
    + intros d Hd [Hs _] Hroom.
      apply holiday_resolves_none; [cbn; lia | exact Hroom |].
      now apply Hfrozen.
    + intros k a Hk Ha. apply (agree_upto_resolve s s' k); [|exact Ha].
      split; [reflexivity | split; [reflexivity|]].
      intros j Hj. split; [|split; [reflexivity|]].
      * rewrite (is_global_holiday_returns _ s'),
          (is_global_holiday_returns _ s).
        cbn [s' set_global_holidays global_holidays fst].
        rewrite existsb_app. cbn [existsb].
        destruct (day_in_range (cadence s j) _) eqn:E.
        -- apply day_in_range_true in E. unfold cadence in *. lia.
        -- now rewrite !orb_false_r.
      * intros m _. reflexivity.
Qed.

Lemma holidayrange_freezes_range_witness :
  ∃ s',
    holidayrange_handler 7 [Some (ymd 2025 12 8); Some (ymd 2025 12 14)]
      (Some Sample.plain)
    = (Ok (HolidayAdded (ymd 2025 12 8) (ymd 2025 12 14)), Some s')
    ∧ returns (get_duty_member (ymd 2025 12 8)) s' None
    ∧ returns (get_duty_member (ymd 2025 12 1)) s' (Some Sample.A).
Proof.
  destruct (holidayrange_freezes_range 7 (ymd 2025 12 8) (ymd 2025 12 14))
    as [_ H].
  destruct (H ltac:(vm_compute; discriminate) Sample.plain)
    as (s' & Hrun & _ & Hin & Hbefore).
  exists s'. split; [exact Hrun | split].
  - apply Hin.
    + vm_compute. split; discriminate.
    + in_calendar.
    + vm_compute. discriminate.
  - apply (Hbefore 0%nat); [vm_compute | ]; reflexivity.
Defined.

(** ** Absences *)

Lemma away_run user_id d_from d_to s m :
  d_from ≤ d_to →
  returns (get_member_by_id user_id) s (Some m) →
  away_handler user_id [Some d_from; Some d_to] (Some s)
  = (Ok (AwayAdded d_from d_to),
     Some (set_away_ranges
             (λ aw, <[user_id := default [] (aw !! user_id)
                                 ++ [mkRange d_from d_to]]> aw) s)).
Proof.
  intros Hle Hm. unfold away_handler. rewrite decide_False by lia.
  unfold bind, load_state, call. now rewrite Hm.
Qed.

(** X6: [/away] by somebody who is not a member changes nothing; by a
    member with an ordered range it is saved, after which that user gets
    a date of the range only through an override in their name, while the
    cadence dates before the range resolve as they did. *)
Theorem away_keeps_member_off_duty user_id d_from d_to s :
  d_from ≤ d_to →
  (returns (get_member_by_id user_id) s None →
   away_handler user_id [Some d_from; Some d_to] (Some s)
   = (Ok NeedJoin, Some s))
  ∧ (∀ m0, returns (get_member_by_id user_id) s (Some m0) →
     ∃ s',
       away_handler user_id [Some d_from; Some d_to] (Some s)
       = (Ok (AwayAdded d_from d_to), Some s')
       ∧ (∀ d m, d_from ≤ d ≤ d_to →
                 returns (get_duty_member d) s' (Some m) →
                 id m = user_id →
                 overrides s' !! d = Some user_id)
       ∧ (∀ k a, cadence s k < d_from →
                 returns (get_duty_member (cadence s k)) s a →
                 returns (get_duty_member (cadence s k)) s' a)).
Proof.
  intros Hle. split.
  - intros Hm. unfold away_handler. rewrite decide_False by lia.
    unfold bind, load_state, call. now rewrite Hm.
  - intros m0 Hm0. eexists. split; [now apply (away_run _ _ _ _ m0)|].
    set (s' := set_away_ranges _ s).
    assert (Haw : ∀ uid d,
      fst (is_member_away_on uid d s')
      = Ok (existsb (day_in_range d) (default [] (away_ranges s !! uid))
            || bool_decide (uid = user_id)
               && day_in_range d (mkRange d_from d_to))).
    { intros uid d. rewrite (is_member_away_on_returns uid d s').
      cbn [fst s' set_away_ranges away_ranges]. f_equal.
      destruct (decide (uid = user_id)) as [->|Hne].
      - rewrite lookup_insert_eq. cbn [from_option Datatypes.id].
        rewrite existsb_app. cbn [existsb].
        now rewrite bool_decide_eq_true_2, orb_false_r by done.
      - rewrite lookup_insert_ne by done.
        now rewrite bool_decide_eq_false_2, orb_false_r by done. }
    split.
    + intros d m Hd Hres Hid.
      destruct (resolve_assigned s' d m Hres)
        as (_ & [(uid & Ho & Hg) | (_ & _ & Hnot)]).
      * destruct (get_member_by_id_Some uid s' m Hg) as [_ E].
        rewrite <- Hid, E. exact Ho.
      * pose proof (Haw (id m) d) as E. rewrite Hnot in E. cbn [fst] in E.
        rewrite Hid, bool_decide_eq_true_2 in E by done.
        rewrite (proj2 (day_in_range_true d d_from d_to) Hd) in E.
        rewrite orb_true_r in E. discriminate E.
    + intros k a Hk Ha. apply (agree_upto_resolve s s' k); [|exact Ha].
      split; [reflexivity | split; [reflexivity|]].
      intros j Hj. split; [reflexivity | split; [reflexivity|]].
      intros m _. rewrite Haw, (is_member_away_on_returns _ _ s).
      cbn [fst]. f_equal.
      destruct (day_in_range (cadence s j) _) eqn:E.
      * apply day_in_range_true in E. unfold cadence in *. lia.
      * now rewrite andb_false_r, orb_false_r.
Qed.

Lemma away_keeps_member_off_duty_witness :
  ∃ s',
    away_handler 2 [Some (ymd 2025 12 8); Some (ymd 2025 12 8)]
      (Some Sample.plain)
    = (Ok (AwayAdded (ymd 2025 12 8) (ymd 2025 12 8)), Some s')
    ∧ returns (get_duty_member (ymd 2025 12 1)) s' (Some Sample.A).
Proof.
  destruct (away_keeps_member_off_duty 2 (ymd 2025 12 8) (ymd 2025 12 8)
              Sample.plain ltac:(vm_compute; discriminate)) as [_ H].
  destruct (H Sample.B eq_refl) as (s' & Hrun & _ & Hbefore).
  exists s'. split; [exact Hrun|].
  apply (Hbefore 0%nat); [vm_compute | ]; reflexivity.
Defined.

(** ** Asking for a substitute and getting one *)

Lemma skip_handler_run requester d s :
  ∃ r, get_duty_member d s = (r, s)
       ∧ skip_handler requester [Some d] (Some s)
         = (match r with
            | Ok None => Ok NoDutyThatDay
            | Ok (Some m) =>
                Ok (if bool_decide (id m ≠ requester)
                    then NotYourDuty d (label m)
                    else Offer d (label m) requester)
            | Raise e => Raise e
            | OutOfFuel => OutOfFuel
            end, Some s).
Proof.
  destruct (get_duty_member_outcome d s) as (r & Hr & _).
  exists r. split; [exact Hr|].
  unfold skip_handler, bind, load_state, call. rewrite Hr.
  destruct r as [[m|]|e|]; try reflexivity. now destruct (bool_decide _).
Qed.

(** X7: [/skip] never writes to an existing file, and it offers the swap
    of a date exactly when the sender is the member [get_duty_member]
    returns for that date; the offer then carries the sender's id as the
    absent one. *)
Theorem skip_offers_only_to_duty_member requester s :
  (∀ args, snd (skip_handler requester args (Some s)) = Some s)
  ∧ (∀ d l a,
       skip_handler requester [Some d] (Some s) = (Ok (Offer d l a), Some s)
       ↔ a = requester
         ∧ ∃ m, returns (get_duty_member d) s (Some m)
                ∧ id m = requester ∧ label m = l).
Proof.
  split.
  - intros [|[d|] [|? ?]]; try reflexivity.
    destruct (skip_handler_run requester d s) as (a & _ & ->). reflexivity.
  - intros d l a.
    destruct (skip_handler_run requester d s) as (r & Hr & ->). split.
    + intros E. destruct r as [[m|]|e|]; try discriminate E.
      destruct (bool_decide (id m ≠ requester)) eqn:Hb; [discriminate E|].
      injection E as <- <-. split; [reflexivity|]. exists m.
      apply bool_decide_eq_false in Hb.
      split; [exact Hr | split; [|reflexivity]].
      destruct (decide (id m = requester)); [done | contradiction].
    + intros (-> & m & Hm & Hid & <-).
      unfold returns in Hm. rewrite Hr in Hm. injection Hm as ->.
      now rewrite bool_decide_eq_false_2 by (intros H; now apply H).
Qed.

(** X8: once a member has volunteered for a cadence date that is not
    frozen and had no override, a date of the calendar like the start
    date, the saved state resolves that date to the volunteer. *)
Theorem accepted_volunteer_gets_the_date s k absent_id volunteer_id vm :
  is_date (start_date s) →
  is_date (cadence s k) →
  overrides s !! cadence s k = None →
  returns (is_global_holiday (cadence s k)) s false →
  returns (get_member_by_id volunteer_id) s (Some vm) →
  ∃ r s',
    volunteer_callback (cadence s k) absent_id volunteer_id (Some s)
    = (Ok r, Some s')
    ∧ returns (get_duty_member (cadence s' k)) s' (Some vm).
Proof.
  intros Hstart Hday Ho Hh Hv. eexists _, _.
  split; [apply (volunteer_callback_accept s _ absent_id volunteer_id vm Hv Ho)|].
  set (s' := accepted s (cadence s k) absent_id volunteer_id).
  destruct (get_member_by_id_Some _ _ _ Hv) as [Hin _].
  apply (resolve_override s' k volunteer_id).
  - cbn [s' accepted members]. intros E. rewrite E in Hin.
    now apply elem_of_nil in Hin.
  - exact Hstart.
  - exact Hday.
  - now apply (holiday_same s s').
  - apply lookup_insert_eq.
  - now apply (get_member_by_id_same s s').
Qed.

Lemma accepted_volunteer_gets_the_date_witness :
  ∃ r s',
    volunteer_callback (ymd 2025 12 8) 2 1 (Some Sample.plain)
    = (Ok r, Some s')
    ∧ returns (get_duty_member (cadence s' 1)) s' (Some Sample.A).
Proof.
  exact (accepted_volunteer_gets_the_date Sample.plain 1 2 1 Sample.A
           ltac:(in_calendar) ltac:(in_calendar) eq_refl eq_refl eq_refl).
Defined.

Lemma scan_present_at_pointer s ms current pos m :
  ms !! pos = Some m →
  returns (is_member_away_on (id m) current) s false →
  returns (scan (length ms) ms current pos) s
          (Some (m, ((pos + 1) mod length ms)%nat)).
Proof.
  intros Hm Hnot. pose proof (lookup_lt_Some _ _ _ Hm) as Hlt.
  destruct (length ms) as [|n] eqn:Hlen; [lia|].
  cbn [scan]. unfold returns.
  step_with (index_returns ms pos m s Hm). step_with Hnot.
  now rewrite Hlen.
Qed.

(** X9: when the member whose turn it is, the one at the rotation pointer,
    is present and hands the date over to a volunteer, the swap changes
    who is on duty on that date and on no other cadence date. *)
Theorem swap_changes_only_its_date s k absent_id volunteer_id vm m :
  overrides s !! cadence s k = None →
  returns (is_global_holiday (cadence s k)) s false →
  returns (get_member_by_id volunteer_id) s (Some vm) →
  members s !! pointer_at s k = Some m →
  returns (is_member_away_on (id m) (cadence s k)) s false →
  ∃ r s',
    volunteer_callback (cadence s k) absent_id volunteer_id (Some s)
    = (Ok r, Some s')
    ∧ ∀ j a, j ≠ k →
        returns (get_duty_member (cadence s j)) s a →
        returns (get_duty_member (cadence s j)) s' a.
Proof.
  intros Ho Hh Hv Hm Hnot. eexists _, _.
  split; [apply (volunteer_callback_accept s _ absent_id volunteer_id vm Hv Ho)|].
  set (s' := accepted s (cadence s k) absent_id volunteer_id).
  assert (Hne : members s ≠ []).
  { intros E. rewrite E in Hm. discriminate Hm. }
  assert (Hcyc : ∀ j pos, j ≠ k →
    cycle_out s' (cadence s j) pos = cycle_out s (cadence s j) pos).
  { intros j pos Hj. apply cycle_out_ext; try reflexivity.
    cbn [s' accepted overrides]. apply lookup_insert_ne.
    intros E. apply Hj. symmetry. now apply (cadence_inj s). }
  assert (Hptr : ∀ j, pointer_at s' j = pointer_at s j).
  { induction j as [|j IH]; [reflexivity|]. cbn [pointer_at].
    rewrite IH. change (cadence s' j) with (cadence s j).
    destruct (decide (j = k)) as [->|Hj]; [|now rewrite Hcyc].
    rewrite (cycle_out_returns s (cadence s k) (pointer_at s k) _
               (duty_cycle_scan s _ _ _ _ Hh Ho
                  (scan_present_at_pointer s _ _ _ m Hm Hnot))).
    rewrite (cycle_out_returns s' (cadence s k) (pointer_at s k) _
               (duty_cycle_override s' (members s') _ _ volunteer_id _
                  (holiday_same s s' _ _ eq_refl Hh)
                  (lookup_insert_eq _ _ _)
                  (get_member_by_id_returns volunteer_id s'))).
    reflexivity. }
  intros j a Hj Ha. apply cadence_transfer; try done.
  now rewrite Hptr, Hcyc.
Qed.

Lemma swap_changes_only_its_date_witness :
  ∃ r s',
    volunteer_callback (ymd 2025 12 8) 2 1 (Some Sample.plain)
    = (Ok r, Some s')
    ∧ returns (get_duty_member (ymd 2025 12 15)) s' (Some Sample.C).
Proof.
  destruct (swap_changes_only_its_date Sample.plain 1 2 1 Sample.A Sample.B
              eq_refl eq_refl eq_refl eq_refl eq_refl)
    as (r & s' & Hrun & Hsame).
  exists r, s'. split; [exact Hrun|].
  apply (Hsame 2%nat); [lia | reflexivity].
Defined.

(** When the scan had to skip somebody to find the member on duty, a swap
    moves the pointer to a different place and the later dates change
    hands: B is away on December 8th, C is on duty and is replaced by A;
    December 15th then goes to C instead of A. *)
Example swap_after_skip_shifts_rotation :
  returns (get_duty_member (ymd 2025 12 15)) Sample.b_away (Some Sample.A)
  ∧ ∃ s', volunteer_callback (ymd 2025 12 8) 3 1 (Some Sample.b_away)
          = (Ok (Swapped (ymd 2025 12 8) (Label "C") "A"), Some s')
          ∧ returns (get_duty_member (ymd 2025 12 15)) s' (Some Sample.C).
Proof. split; [reflexivity|]. eexists. split; reflexivity. Qed.

(** * What every saved state satisfies *)

Lemma find_id_None (ms : list Member) uid :
  find (λ m, bool_decide (id m = uid)) ms = None ↔ uid ∉ id <$> ms.
Proof.
  induction ms as [|m ms IH]; cbn.
  - split; [intros _; apply not_elem_of_nil | done].
  - rewrite not_elem_of_cons. case_bool_decide as E.
    + split; [discriminate | intros [H _]; congruence].
    + rewrite IH. split; [intros H; split; [congruence | done] | tauto].
Qed.

Lemma find_id_unique (ms : list Member) m :
  NoDup (id <$> ms) → m ∈ ms →
  find (λ m', bool_decide (id m' = id m)) ms = Some m.
Proof.
  induction ms as [|y ms IH]; intros Hnd Hin.
  - now apply elem_of_nil in Hin.
  - cbn in *. apply NoDup_cons in Hnd as [Hy Hnd].
    apply elem_of_cons in Hin as [->|Hin].
    + now rewrite bool_decide_eq_true_2.
    + rewrite bool_decide_eq_false_2; [now apply IH|].
      intros E. apply Hy. rewrite E. now apply list_elem_of_fmap_2.
Qed.

Lemma relabel_ids uid l (ms : list Member) :
  id <$> relabel uid l ms = id <$> ms.
Proof.
  induction ms as [|m ms IH]; [reflexivity|]. cbn.
  case_bool_decide; cbn; [reflexivity | now rewrite IH].
Qed.

Lemma remove_first_subset {A} `{EqDecision A} (x y : A) (l : list A) :
  y ∈ remove_first x l → y ∈ l.
Proof.
  induction l as [|z l IH]; cbn; [done|].
  destruct (decide (z = x)) as [E|E];
    [intros Hy; apply elem_of_cons; now right|].
  rewrite !elem_of_cons. intros [->|Hy]; [now left | right; now apply IH].
Qed.

Lemma remove_first_NoDup {A} `{EqDecision A} (x : A) (l : list A) :
  NoDup l → NoDup (remove_first x l) ∧ x ∉ remove_first x l.
Proof.
  induction l as [|z l IH]; intros Hnd; cbn.
  - split; [constructor | apply not_elem_of_nil].
  - apply NoDup_cons in Hnd as [Hz Hnd]. case_decide as E.
    + subst z. now split.
    + destruct (IH Hnd) as [IH1 IH2]. split.
      * apply NoDup_cons. split; [|exact IH1].
        intros H. apply Hz. eapply remove_first_subset, H.
      * rewrite not_elem_of_cons. split; [congruence | exact IH2].
Qed.

Lemma remove_first_ids (m : Member) (ms : list Member) :
  NoDup (id <$> ms) → m ∈ ms →
  NoDup (id <$> remove_first m ms) ∧ id m ∉ id <$> remove_first m ms.
Proof.
  induction ms as [|y ms IH]; intros Hnd Hin.
  - now apply elem_of_nil in Hin.
  - cbn in *. apply NoDup_cons in Hnd as [Hy Hnd]. case_decide as E.
    + subst y. now split.
    + apply elem_of_cons in Hin as [->|Hin]; [done|].
      destruct (IH Hnd Hin) as [IH1 IH2]. cbn.
      assert (Hsub : ∀ i, i ∈ id <$> remove_first m ms → i ∈ id <$> ms).
      { intros i Hi. apply list_elem_of_fmap in Hi as (z & -> & Hz).
        apply list_elem_of_fmap_2. eapply remove_first_subset, Hz. }
      split.
      * apply NoDup_cons. split; [|exact IH1]. intros H. now apply Hy, Hsub.
      * rewrite not_elem_of_cons. split; [|exact IH2].
        intros Eid. apply Hy. rewrite <- Eid. now apply list_elem_of_fmap_2.
Qed.

Lemma members_penalty_ids (ms : list Member) (p : gmap Z Z) :
  (∀ m, m ∈ ms → is_Some (p !! id m))
  ↔ (∀ i, i ∈ id <$> ms → is_Some (p !! i)).
Proof.
  split.
  - intros H i Hi. apply list_elem_of_fmap in Hi as (m & -> & Hm). now apply H.
  - intros H m Hm. apply H. now apply list_elem_of_fmap_2.
Qed.

Lemma consistent_default : consistent DEFAULT_STATE.
Proof.
  constructor; cbn.
  - constructor.
  - intros m Hm. now apply elem_of_nil in Hm.
  - intros uid n H. now rewrite lookup_empty in H.
  - intros r Hr. now apply elem_of_nil in Hr.
  - intros uid rs r H. now rewrite lookup_empty in H.
  - constructor.
Qed.

Lemma consistent_loaded w : world_ok w → consistent (loaded w).
Proof.
  intros Hw. destruct w as [s|]; [now apply Hw | apply consistent_default].
Qed.

Section Preserved.
Variable s : State.
Hypothesis ok : consistent s.

Lemma consistent_ensure uid :
  consistent (snd (ensure_penalty_entry uid s)).
Proof.
  destruct ok. constructor; cbn; try done.
  - intros m Hm. destruct (penalties s !! uid) eqn:E; [now auto|].
    destruct (decide (id m = uid)) as [->|Hne].
    + rewrite lookup_insert_eq. eauto.
    + rewrite lookup_insert_ne by done. auto.
  - intros i n. destruct (penalties s !! uid) eqn:E; [now eauto|].
    destruct (decide (uid = i)) as [->|Hne].
    + rewrite lookup_insert_eq. intros [= <-]. lia.
    + rewrite lookup_insert_ne by done. eauto.
Qed.

Lemma consistent_relabel uid l :
  consistent (set_members (relabel uid l) s).
Proof.
  destruct ok. constructor; cbn; try done.
  - now rewrite relabel_ids.
  - apply members_penalty_ids. rewrite relabel_ids.
    now apply members_penalty_ids.
Qed.

Lemma consistent_append uid l :
  returns (get_member_by_id uid) s None →
  is_Some (penalties s !! uid) →
  consistent (set_members (λ ms, ms ++ [mkMember uid l]) s).
Proof.
  intros Hnew Hpen. destruct ok. constructor; cbn; try done.
  - rewrite fmap_app. apply NoDup_app. split; [done | split].
    + intros i Hi Hi'. cbn in Hi'. apply list_elem_of_singleton in Hi'.
      subst i. revert Hi. apply find_id_None.
      symmetry. exact (returns_inj _ _ _ _ Hnew
                         (get_member_by_id_returns uid s)).
    + cbn. apply NoDup_singleton.
  - intros m Hm. apply elem_of_app in Hm as [Hm|Hm]; [now auto|].
    apply list_elem_of_singleton in Hm. now subst m.
Qed.

Lemma consistent_remove m :
  m ∈ members s →
  consistent (set_penalties (delete (id m))
                (set_members (remove_first m) s)).
Proof.
  intros Hin. destruct ok.
  destruct (remove_first_ids m (members s) ids_distinct0 Hin) as [Hnd Hgone].
  constructor; cbn; try done.
  - intros m' Hm'. rewrite lookup_delete_ne.
    + apply members_have_penalty0. eapply remove_first_subset, Hm'.
    + intros E. apply Hgone. rewrite E. now apply list_elem_of_fmap_2.
  - intros i n Hi. apply lookup_delete_Some in Hi as [_ Hi]. eauto.
Qed.

Lemma consistent_holiday r :
  from r ≤ to r → consistent (set_global_holidays (λ rs, rs ++ [r]) s).
Proof.
  intros Hr. destruct ok. constructor; cbn; try done.
  intros r' Hr'. apply elem_of_app in Hr' as [H|H]; [now auto|].
  apply list_elem_of_singleton in H. now subst r'.
Qed.

Lemma consistent_away uid r :
  from r ≤ to r →
  consistent (set_away_ranges
                (λ aw, <[uid := default [] (aw !! uid) ++ [r]]> aw) s).
Proof.
  intros Hr. destruct ok. constructor; cbn; try done.
  intros i rs r' Hi Hr'. destruct (decide (uid = i)) as [->|Hne].
  - rewrite lookup_insert_eq in Hi. injection Hi as <-.
    apply elem_of_app in Hr' as [H|H].
    + destruct (away_ranges s !! i) as [rs|] eqn:E; cbn in H.
      * eauto.
      * now apply elem_of_nil in H.
    + apply list_elem_of_singleton in H. now subst r'.
  - rewrite lookup_insert_ne in Hi by done. eauto.
Qed.

Lemma consistent_start d : consistent (set_start_date d s).
Proof. destruct ok. now constructor. Qed.

Lemma consistent_enable c :
  c ∉ notify_chats s → consistent (set_notify_chats (λ cs, cs ++ [c]) s).
Proof.
  intros Hc. destruct ok. constructor; cbn; try done.
  apply NoDup_app. split; [done | split; [|apply NoDup_singleton]].
  intros i Hi Hi'. apply list_elem_of_singleton in Hi'. now subst i.
Qed.

Lemma consistent_disable c :
  consistent (set_notify_chats (remove_first c) s).
Proof.
  destruct ok. constructor; cbn; try done.
  now apply remove_first_NoDup.
Qed.

Lemma consistent_accepted d absent_id volunteer_id :
  consistent (accepted s d absent_id volunteer_id).
Proof.
  destruct ok. constructor; cbn; try done.
  - intros m Hm. destruct (decide (absent_id = id m)) as [->|Hne].
    + rewrite lookup_insert_eq. eauto.
    + rewrite lookup_insert_ne by done. auto.
  - intros i n. destruct (decide (absent_id = i)) as [->|Hne].
    + rewrite lookup_insert_eq. intros [= <-].
      destruct (penalties s !! i) as [n0|] eqn:E; cbn; [|lia].
      pose proof (penalties_nonneg0 i n0 E). lia.
    + rewrite lookup_insert_ne by done. eauto.
Qed.
End Preserved.

Lemma world_ok_some s : consistent s → world_ok (Some s).
Proof. intros H s' [= <-]. exact H. Qed.

Lemma get_duty_for_day_run d s :
  ∃ r, get_duty_member d s = (r, s)
       ∧ get_duty_for_day d s
         = (match r with
            | Ok a => Ok (label <$> a)
            | Raise e => Raise e
            | OutOfFuel => OutOfFuel
            end, s).
Proof.
  destruct (get_duty_member_outcome d s) as (r & Hr & _).
  exists r. split; [exact Hr|]. unfold get_duty_for_day, bind. rewrite Hr.
  now destruct r.
Qed.

Lemma week_lines_frame sunday weeks s :
  snd (week_lines sunday weeks s) = s.
Proof.
  induction weeks as [|i weeks IH]; [reflexivity|]. cbn [week_lines].
  unfold bind at 1. rewrite add_days_run.
  destruct (decide _) as [Hin|Hout]; [|reflexivity].
  unfold bind at 1.
  destruct (get_duty_for_day_run (sunday + 7 * i) s) as (r & _ & ->).
  destruct r as [a|e|]; [|reflexivity..].
  unfold bind at 1.
  destruct (week_lines sunday weeks s) as [[ls|e|] s']; cbn in IH; now subst.
Qed.

(** A call that only reads, followed by a reply, leaves the file alone,
    also when the call raises. *)
Lemma call_readonly {A B} state (m : M A) (k : A → State → St World B) w :
  (∀ a st, snd (k a st w) = w) → snd (call state m k w) = w.
Proof.
  intros Hk. unfold call.
  destruct (m state) as [[a|e|] st]; [apply Hk | reflexivity..].
Qed.

Lemma load_state_run w : load_state w = (Ok (loaded w), Some (loaded w)).
Proof. now destruct w. Qed.

Ltac enter_handler :=
  unfold bind at 1; rewrite load_state_run; unfold call.

Section HandlersPreserve.
Variable w : World.
Hypothesis ok : world_ok w.

Let ok_loaded : consistent (loaded w) := consistent_loaded w ok.

Lemma today_handler_ok today : world_ok (snd (today_handler today w)).
Proof.
  unfold today_handler. unfold bind at 1. rewrite load_state_run.
  rewrite call_readonly by reflexivity. now apply world_ok_some.
Qed.

Lemma next_handler_ok today : world_ok (snd (next_handler today w)).
Proof.
  unfold next_handler. unfold bind at 1. rewrite load_state_run.
  unfold bind at 1, next_sunday. rewrite add_days_run.
  destruct (decide _); [rewrite call_readonly by reflexivity | cbn];
    now apply world_ok_some.
Qed.

Lemma week_handler_ok today : world_ok (snd (week_handler today w)).
Proof.
  unfold week_handler. unfold bind at 1. rewrite load_state_run.
  unfold bind at 1, next_sunday. rewrite add_days_run.
  destruct (decide _); [rewrite call_readonly by reflexivity | cbn];
    now apply world_ok_some.
Qed.

Lemma register_ok uid l (k1 k2 : Answer) :
  world_ok (snd (call (loaded w) (get_member_by_id uid) (λ existing state,
    match existing with
    | Some _ =>
        call state (set_label uid l) (λ _ state,
        call state (ensure_penalty_entry uid) (λ _ state,
        _ <- save_state state ;; ret k1))
    | None =>
        call state (append_member (mkMember uid l)) (λ _ state,
        call state (ensure_penalty_entry uid) (λ _ state,
        _ <- save_state state ;; ret k2))
    end) (Some (loaded w)))).
Proof.
  unfold call. rewrite (get_member_by_id_returns uid (loaded w)).
  destruct (find _ _) as [m|] eqn:Hf; cbn.
  - apply world_ok_some.
    apply (consistent_ensure (set_members (relabel uid l) (loaded w))).
    now apply consistent_relabel.
  - apply world_ok_some.
    set (s1 := snd (ensure_penalty_entry uid (loaded w))).
    assert (H1 : consistent s1) by now apply consistent_ensure.
    assert (Hnew : returns (get_member_by_id uid) s1 None).
    { rewrite <- Hf. apply (get_member_by_id_returns uid s1). }
    assert (Hpen : is_Some (penalties s1 !! uid)).
    { cbn. destruct (penalties (loaded w) !! uid) eqn:E; [rewrite E; eauto|].
      rewrite lookup_insert_eq. eauto. }
    exact (consistent_append s1 H1 uid l Hnew Hpen).
Qed.

Lemma join_handler_ok uid args : world_ok (snd (join_handler uid args w)).
Proof.
  unfold join_handler. destruct args as [|a args]; [exact ok|].
  enter_handler. apply register_ok.
Qed.

Lemma addmember_handler_ok uid args reply_to :
  world_ok (snd (addmember_handler uid args reply_to w)).
Proof.
  unfold addmember_handler. cbn [is_admin ADMIN_IDS negb].
  destruct args as [|a args]; [exact ok|].
  enter_handler. apply register_ok.
Qed.

Lemma removemember_handler_ok uid args :
  world_ok (snd (removemember_handler uid args w)).
Proof.
  unfold removemember_handler. cbn [is_admin ADMIN_IDS negb].
  destruct args as [|a args]; [exact ok|].
  enter_handler. unfold get_member_by_label.
  step_with (returns_gets members (loaded w)). cbn [ret].
  destruct (find _ _) as [m|] eqn:Hf; cbn.
  - apply world_ok_some. apply consistent_remove; [exact ok_loaded|].
    apply find_some in Hf as [Hin _]. now apply list_elem_of_In.
  - now apply world_ok_some.
Qed.

Lemma points_handler_ok : world_ok (snd (points_handler w)).
Proof.
  unfold points_handler. unfold bind at 1. rewrite load_state_run.
  destruct (members (loaded w)); now apply world_ok_some.
Qed.

Lemma holidayrange_handler_ok uid args :
  world_ok (snd (holidayrange_handler uid args w)).
Proof.
  unfold holidayrange_handler. cbn [is_admin ADMIN_IDS negb].
  destruct args as [|[f|] [|[t|] [|? ?]]]; try exact ok.
  destruct (decide (t < f)); [exact ok|].
  enter_handler. cbn. apply world_ok_some.
  apply consistent_holiday; [exact ok_loaded | cbn; lia].
Qed.

Lemma away_handler_ok uid args : world_ok (snd (away_handler uid args w)).
Proof.
  unfold away_handler.
  destruct args as [|[f|] [|[t|] [|? ?]]]; try exact ok.
  destruct (decide (t < f)); [exact ok|].
  enter_handler. rewrite (get_member_by_id_returns uid (loaded w)).
  destruct (find _ _); cbn; apply world_ok_some; [|exact ok_loaded].
  apply consistent_away; [exact ok_loaded | cbn; lia].
Qed.

Lemma setstart_handler_ok uid args :
  world_ok (snd (setstart_handler uid args w)).
Proof.
  unfold setstart_handler. cbn [is_admin ADMIN_IDS negb].
  destruct args as [|[d|] [|? ?]]; try exact ok.
  enter_handler. cbn. apply world_ok_some. now apply consistent_start.
Qed.

Lemma enablenotify_handler_ok uid c :
  world_ok (snd (enablenotify_handler uid c w)).
Proof.
  unfold enablenotify_handler. cbn [is_admin ADMIN_IDS negb].
  unfold bind at 1. rewrite load_state_run. case_bool_decide as Hc; cbn.
  - now apply world_ok_some.
  - apply world_ok_some. now apply consistent_enable.
Qed.

Lemma disablenotify_handler_ok uid c :
  world_ok (snd (disablenotify_handler uid c w)).
Proof.
  unfold disablenotify_handler. cbn [is_admin ADMIN_IDS negb].
  unfold bind at 1. rewrite load_state_run. case_bool_decide as Hc; cbn.
  - apply world_ok_some. now apply consistent_disable.
  - now apply world_ok_some.
Qed.

Lemma skip_handler_ok uid args : world_ok (snd (skip_handler uid args w)).
Proof.
  unfold skip_handler. destruct args as [|[d|] [|? ?]]; try exact ok.
  unfold bind at 1. rewrite load_state_run. rewrite call_readonly.
  - now apply world_ok_some.
  - intros [m|] st; [destruct (bool_decide _)|]; reflexivity.
Qed.

Lemma volunteer_callback_ok d absent_id volunteer_id :
  world_ok (snd (volunteer_callback d absent_id volunteer_id w)).
Proof.
  assert (E : volunteer_callback d absent_id volunteer_id w
              = volunteer_callback d absent_id volunteer_id
                  (Some (loaded w))).
  { unfold volunteer_callback. unfold bind at 1 3.
    now rewrite load_state_run. }
  rewrite E.
  pose proof (get_member_by_id_returns volunteer_id (loaded w)) as Hv.
  destruct (find _ _) as [vm|] in Hv.
  - destruct (overrides (loaded w) !! d) as [already|] eqn:Ho.
    + rewrite (volunteer_callback_taken _ _ _ _ vm already Hv Ho).
      now apply world_ok_some.
    + rewrite (volunteer_callback_accept _ _ _ _ vm Hv Ho).
      apply world_ok_some. now apply consistent_accepted.
  - rewrite (volunteer_callback_stranger _ _ _ _ Hv).
    now apply world_ok_some.
Qed.

Lemma daily_reminder_ok today : world_ok (snd (daily_reminder today w)).
Proof.
  unfold daily_reminder. unfold bind at 1. rewrite load_state_run.
  rewrite call_readonly.
  - now apply world_ok_some.
  - now intros [m|] st.
Qed.

Lemma dispatch_ok u : world_ok (snd (dispatch u w)).
Proof.
  assert (Hd : ∀ A (h : St World A), snd (discard h w) = snd (h w)).
  { intros A h. unfold discard, bind. now destruct (h w) as [[a|e|] w']. }
  destruct u; cbn [dispatch]; rewrite Hd.
  - apply today_handler_ok.
  - apply next_handler_ok.
  - apply week_handler_ok.
  - apply join_handler_ok.
  - apply addmember_handler_ok.
  - apply removemember_handler_ok.
  - apply points_handler_ok.
  - apply holidayrange_handler_ok.
  - apply away_handler_ok.
  - apply setstart_handler_ok.
  - apply enablenotify_handler_ok.
  - apply disablenotify_handler_ok.
  - apply skip_handler_ok.
  - apply volunteer_callback_ok.
  - apply daily_reminder_ok.
  - rewrite load_state_run. now apply world_ok_some.
Qed.
End HandlersPreserve.

Lemma reachable_ok w : reachable w → world_ok w.
Proof.
  induction 1 as [|w u _ IH]; [intros s [=] | now apply dispatch_ok].
Qed.

Lemma reachable_consistent s : reachable (Some s) → consistent s.
Proof. intros H. now apply (reachable_ok (Some s) H). Qed.

Lemma reachable_first_join :
  reachable (snd (dispatch (CmdJoin 1 ["A"%string]) None)).
Proof. exact (reach_step None (CmdJoin 1 ["A"%string]) reach_start). Qed.

(** X10: in every state the bot can have saved, starting without a file,
    no two members share an id, so that [get_member_by_id] returns a
    member exactly when that member is in the list under that id. *)
Theorem reachable_ids_distinct s :
  reachable (Some s) →
  NoDup (id <$> members s)
  ∧ ∀ uid m, returns (get_member_by_id uid) s (Some m)
             ↔ m ∈ members s ∧ id m = uid.
Proof.
  intros Hr. destruct (reachable_consistent s Hr) as [Hnd _ _ _ _ _].
  split; [exact Hnd|]. intros uid m. split.
  - apply get_member_by_id_Some.
  - intros [Hin <-]. unfold returns.
    rewrite (get_member_by_id_returns (id m) s).
    now rewrite (find_id_unique _ m Hnd Hin).
Qed.

Lemma reachable_ids_distinct_witness :
  ∃ s, snd (dispatch (CmdJoin 1 ["A"%string]) None) = Some s
       ∧ NoDup (id <$> members s).
Proof.
  eexists. split; [reflexivity|].
  apply reachable_ids_distinct. exact reachable_first_join.
Defined.

(** X11: in every state the bot can have saved, each member has a penalty
    entry and no penalty count is negative. *)
Theorem reachable_penalties_sound s :
  reachable (Some s) →
  (∀ m, m ∈ members s → is_Some (penalties s !! id m))
  ∧ (∀ uid n, penalties s !! uid = Some n → 0 ≤ n).
Proof.
  intros Hr. destruct (reachable_consistent s Hr) as [_ Hm Hp _ _ _].
  now split.
Qed.

Lemma reachable_penalties_sound_witness :
  ∃ s, snd (dispatch (CmdJoin 1 ["A"%string]) None) = Some s
       ∧ penalties s !! 1 = Some 0.
Proof.
  eexists. split; [reflexivity|].
  destruct (reachable_penalties_sound _ reachable_first_join) as [Hm _].
  destruct (Hm (mkMember 1 "A")) as [n Hn].
  - apply list_elem_of_singleton. reflexivity.
  - reflexivity.
Defined.

(** X12: in every state the bot can have saved, no holiday interval and
    no absence interval ends before it starts. *)
Theorem reachable_intervals_ordered s :
  reachable (Some s) →
  (∀ r, r ∈ global_holidays s → from r ≤ to r)
  ∧ (∀ uid rs r, away_ranges s !! uid = Some rs → r ∈ rs → from r ≤ to r).
Proof.
  intros Hr. destruct (reachable_consistent s Hr) as [_ _ _ Hh Ha _].
  now split.
Qed.

Lemma reachable_two_steps :
  reachable (snd (dispatch
                    (CmdAway 1 [Some (ymd 2025 12 8); Some (ymd 2025 12 9)])
                    (snd (dispatch (CmdJoin 1 ["A"%string]) None)))).
Proof. apply reach_step, reachable_first_join. Qed.

Lemma reachable_intervals_ordered_witness :
  ∃ s, snd (dispatch
              (CmdAway 1 [Some (ymd 2025 12 8); Some (ymd 2025 12 9)])
              (snd (dispatch (CmdJoin 1 ["A"%string]) None))) = Some s
       ∧ away_ranges s !! 1 = Some [mkRange (ymd 2025 12 8) (ymd 2025 12 9)]
       ∧ ymd 2025 12 8 ≤ ymd 2025 12 9.
Proof.
  eexists. split; [reflexivity|]. split; [reflexivity|].
  destruct (reachable_intervals_ordered _ reachable_two_steps) as [_ Ha].
  apply (Ha 1 _ (mkRange (ymd 2025 12 8) (ymd 2025 12 9)) eq_refl).
  apply list_elem_of_singleton. reflexivity.
Defined.

(** X13: in every state the bot can have saved, no chat is listed twice
    among the reminder destinations. *)
Theorem reachable_chats_distinct s :
  reachable (Some s) → NoDup (notify_chats s).
Proof.
  intros Hr. now destruct (reachable_consistent s Hr) as [_ _ _ _ _ Hc].
Qed.

Lemma reachable_chats_distinct_witness :
  ∃ s, snd (dispatch (CmdEnableNotify 1 (-100)) None) = Some s
       ∧ NoDup (notify_chats s).
Proof.
  eexists. split; [reflexivity|].
  apply reachable_chats_distinct.
  exact (reach_step None (CmdEnableNotify 1 (-100)) reach_start).
Defined.

(** ** Registration and removal *)

Lemma find_relabel uid l (ms : list Member) m :
  find (λ m, bool_decide (id m = uid)) ms = Some m →
  find (λ m, bool_decide (id m = uid)) (relabel uid l ms)
  = Some (mkMember uid l).
Proof.
  induction ms as [|y ms IH]; cbn; [discriminate|].
  case_bool_decide as E; cbn.
  - intros _. rewrite bool_decide_eq_true_2 by done. now rewrite E.
  - rewrite bool_decide_eq_false_2 by done. exact IH.
Qed.

Lemma find_append_new uid l (ms : list Member) :
  find (λ m, bool_decide (id m = uid)) ms = None →
  find (λ m, bool_decide (id m = uid)) (ms ++ [mkMember uid l])
  = Some (mkMember uid l).
Proof.
  induction ms as [|y ms IH]; cbn.
  - intros _. now rewrite bool_decide_eq_true_2.
  - case_bool_decide; [discriminate | exact IH].
Qed.

Lemma ensure_lookup uid i (p : gmap Z Z) :
  match p !! uid with Some _ => p | None => <[uid := 0]> p end !! i
  = if decide (i = uid) then Some (default 0 (p !! uid)) else p !! i.
Proof.
  destruct (decide (i = uid)) as [->|Hne].
  - destruct (p !! uid) eqn:E; [now rewrite E | now rewrite lookup_insert_eq].
  - destruct (p !! uid); [reflexivity | now rewrite lookup_insert_ne].
Qed.

(** X14: [/join] with a name leaves the sender in the list exactly once
    under that name. Somebody new goes to the end of the rotation;
    somebody already listed keeps their place. In both cases their
    penalty count is what it was, 0 if there was none, and nobody else's
    changes. *)
Theorem join_registers_once user_id args s :
  args ≠ [] →
  ∃ r s',
    join_handler user_id args (Some s) = (Ok r, Some s')
    ∧ returns (get_member_by_id user_id) s'
              (Some (mkMember user_id (join_words args)))
    ∧ (id <$> members s'
       = if decide (user_id ∈ id <$> members s)
         then id <$> members s
         else (id <$> members s) ++ [user_id])
    ∧ ∀ i, penalties s' !! i
           = if decide (i = user_id)
             then Some (default 0 (penalties s !! user_id))
             else penalties s !! i.
Proof.
  intros Hargs. destruct args as [|a args]; [done|].
  unfold join_handler. unfold bind at 1. cbn [load_state]. unfold call.
  rewrite (get_member_by_id_returns user_id s).
  destruct (find _ _) as [m|] eqn:Hf; cbn -[join_words].
  - eexists _, _. split; [reflexivity|]. split; [|split].
    + unfold returns. rewrite (get_member_by_id_returns user_id).
      cbn -[join_words]. now rewrite (find_relabel _ _ _ m Hf).
    + cbn -[join_words]. rewrite relabel_ids. rewrite decide_True; [done|].
      destruct (decide (user_id ∈ id <$> members s)) as [H|H]; [done|].
      apply find_id_None in H. congruence.
    + intros i. cbn -[join_words]. apply ensure_lookup.
  - eexists _, _. split; [reflexivity|]. split; [|split].
    + unfold returns. rewrite (get_member_by_id_returns user_id).
      cbn -[join_words]. now rewrite (find_append_new _ _ _ Hf).
    + cbn -[join_words]. rewrite fmap_app. cbn.
      rewrite decide_False; [done|]. now apply find_id_None.
    + intros i. cbn -[join_words]. apply ensure_lookup.
Qed.

Lemma join_registers_once_witness :
  ∃ r s',
    join_handler 2 ["Bob"%string; "B."%string] (Some Scenario.settled)
    = (Ok r, Some s')
    ∧ returns (get_member_by_id 2) s' (Some (mkMember 2 "Bob B."))
    ∧ id <$> members s' = [1; 2; 3]
    ∧ penalties s' !! 2 = Some 0.
Proof.
  destruct (join_registers_once 2 ["Bob"%string; "B."%string]
              Scenario.settled ltac:(discriminate))
    as (r & s' & Hrun & Hm & Hids & Hpen).
  exists r, s'. split; [exact Hrun | split; [exact Hm | split]].
  - rewrite Hids. reflexivity.
  - rewrite (Hpen 2). reflexivity.
Defined.

(** X15: with the empty administrator list of the source, [/addmember]
    by anybody leaves the file as [/join] by the target user with the
    same words would: the author of the message replied to, or the
    sender. *)
Theorem addmember_acts_as_join user_id args reply_to w :
  snd (addmember_handler user_id args reply_to w)
  = snd (join_handler (default user_id reply_to) args w).
Proof.
  unfold addmember_handler, join_handler. cbn [is_admin ADMIN_IDS negb].
  destruct args as [|a args]; [reflexivity|].
  unfold bind at 1 4. rewrite load_state_run. unfold call.
  rewrite (get_member_by_id_returns (default user_id reply_to) (loaded w)).
  now destruct (find _ _).
Qed.



(** ** Reminders *)

Lemma remove_first_append_new {A} `{EqDecision A} (x : A) (l : list A) :
  x ∉ l → remove_first x (l ++ [x]) = l.
Proof.
  induction l as [|y l IH]; cbn; intros Hx.
  - now rewrite decide_True.
  - apply not_elem_of_cons in Hx as [Hne Hx].
    rewrite decide_False by congruence. now rewrite IH.
Qed.

(** X17: enabling the reminders in a chat that did not have them lists
    the chat; enabling again is refused and changes nothing; disabling
    then gives back exactly the state there was before. *)
Theorem enable_then_disable_restores s user_id chat_id :
  chat_id ∉ notify_chats s →
  ∃ s1,
    enablenotify_handler user_id chat_id (Some s)
    = (Ok NotifyEnabled, Some s1)
    ∧ chat_id ∈ notify_chats s1
    ∧ enablenotify_handler user_id chat_id (Some s1)
      = (Ok NotifyAlready, Some s1)
    ∧ disablenotify_handler user_id chat_id (Some s1)
      = (Ok NotifyDisabled, Some s).
Proof.
  intros Hc. exists (set_notify_chats (λ cs, cs ++ [chat_id]) s).
  assert (Hin : chat_id ∈ notify_chats s ++ [chat_id]).
  { apply elem_of_app. right. now apply list_elem_of_singleton. }
  split; [|split; [exact Hin | split]].
  - unfold enablenotify_handler. cbn [is_admin ADMIN_IDS negb].
    unfold bind at 1. cbn [load_state].
    now rewrite bool_decide_eq_false_2.
  - unfold enablenotify_handler. cbn [is_admin ADMIN_IDS negb].
    unfold bind at 1. cbn [load_state set_notify_chats notify_chats].
    now rewrite bool_decide_eq_true_2.
  - unfold disablenotify_handler. cbn [is_admin ADMIN_IDS negb].
    unfold bind at 1. cbn [load_state set_notify_chats notify_chats].
    rewrite bool_decide_eq_true_2 by done.
    unfold call, modify, bind, save_state, ret.
    cbn [negb set_notify_chats notify_chats start_date members penalties
         overrides global_holidays away_ranges].
    do 2 f_equal. destruct s as [sd ms ps os hs aw cs].
    unfold set_notify_chats. cbn.
    cbn in Hc. now rewrite remove_first_append_new.
Qed.

Lemma enable_then_disable_restores_witness :
  ∃ s1,
    enablenotify_handler 1 (-200) (Some Scenario.settled)
    = (Ok NotifyEnabled, Some s1)
    ∧ -200 ∈ notify_chats s1
    ∧ enablenotify_handler 1 (-200) (Some s1) = (Ok NotifyAlready, Some s1)
    ∧ disablenotify_handler 1 (-200) (Some s1)
      = (Ok NotifyDisabled, Some Scenario.settled).
Proof.
  apply (enable_then_disable_restores Scenario.settled 1 (-200)).
  apply (bool_decide_unpack _). vm_compute. exact I.
Defined.

Lemma daily_reminder_run today s :
  ∃ r, get_duty_member today s = (r, s)
       ∧ daily_reminder today (Some s)
         = (match r with
            | Ok None => Ok []
            | Ok (Some m) => Ok (map (λ c, (c, label m)) (notify_chats s))
            | Raise e => Raise e
            | OutOfFuel => OutOfFuel
            end, Some s).
Proof.
  destruct (get_duty_member_outcome today s) as (r & Hr & _).
  exists r. split; [exact Hr|].
  unfold daily_reminder, bind, load_state, call. rewrite Hr.
  now destruct r as [[m|]|e|].
Qed.

(** X18: the daily job leaves an existing file as it is. Whenever it
    returns, it has tried to send exactly one message to each listed chat
    when [get_duty_member] returns somebody for today, carrying that
    member's label, and no message at all otherwise. It returns whenever
    the start date is a date and a week after today is still in the
    calendar. *)
Theorem reminder_reaches_listed_chats today s :
  snd (daily_reminder today (Some s)) = Some s
  ∧ (∀ msgs w',
       daily_reminder today (Some s) = (Ok msgs, w') →
       (∀ c l, (c, l) ∈ msgs
               ↔ c ∈ notify_chats s
                 ∧ ∃ m, returns (get_duty_member today) s (Some m)
                        ∧ label m = l)
       ∧ (length msgs = length (notify_chats s) ∨ msgs = []))
  ∧ (is_date (start_date s) → today + 7 ≤ MAXORDINAL →
     ∃ msgs, daily_reminder today (Some s) = (Ok msgs, Some s)).
Proof.
  destruct (daily_reminder_run today s) as (r & Hr & Hrun).
  split; [now rewrite Hrun | split].
  - intros msgs w' E. rewrite Hrun in E.
    destruct r as [[m|]|e|]; try discriminate E; injection E as <- _; split.
    + intros c l. rewrite list_elem_of_fmap. split.
      * intros (c' & [= -> ->] & Hc). split; [exact Hc|]. now exists m.
      * intros (Hc & m' & Hm' & <-). exists c. split; [|exact Hc].
        pose proof (returns_inj _ _ _ _ Hr Hm') as [= ->]. reflexivity.
    + left. apply length_map.
    + intros c l. split; [intros H; now apply elem_of_nil in H|].
      intros (_ & m & Hm & _).
      pose proof (returns_inj _ _ _ _ Hr Hm). discriminate.
    + now right.
  - intros [Hs _] Hd.
    destruct (get_duty_member_outcome today s) as (r' & Hr' & _ & Hroom).
    rewrite Hr in Hr'. injection Hr' as <-.
    destruct (Hroom ltac:(lia) Hd) as [a ->]. rewrite Hrun.
    destruct a; eauto.
Qed.

Lemma reminder_reaches_listed_chats_witness :
  ∃ msgs,
    daily_reminder (ymd 2025 12 8) (Some Scenario.settled)
    = (Ok msgs, Some Scenario.settled).
Proof.
  destruct (reminder_reaches_listed_chats (ymd 2025 12 8) Scenario.settled)
    as (_ & _ & H).
  apply H; [in_calendar | vm_compute; discriminate].
Defined.

(** X19: after [/disablenotify] in a chat of a state that lists no chat
    twice, no daily reminder is addressed to that chat. *)
Theorem disabled_chat_gets_no_reminder s user_id chat_id :
  NoDup (notify_chats s) →
  chat_id ∈ notify_chats s →
  ∃ s',
    disablenotify_handler user_id chat_id (Some s)
    = (Ok NotifyDisabled, Some s')
    ∧ ∀ today msgs l,
        daily_reminder today (Some s') = (Ok msgs, Some s') →
        (chat_id, l) ∉ msgs.
Proof.
  intros Hnd Hin. exists (set_notify_chats (remove_first chat_id) s). split.
  - unfold disablenotify_handler. cbn [is_admin ADMIN_IDS negb].
    unfold bind at 1. cbn [load_state].
    now rewrite bool_decide_eq_true_2.
  - intros today msgs l Hrun Hmsg.
    destruct (daily_reminder_run today
                (set_notify_chats (remove_first chat_id) s))
      as (r & _ & Hrun').
    rewrite Hrun' in Hrun.
    destruct r as [[m|]|e|]; try discriminate Hrun; injection Hrun as <-;
      [|now apply elem_of_nil in Hmsg].
    apply list_elem_of_fmap in Hmsg as (c & [= <- _] & Hc).
    cbn [set_notify_chats notify_chats] in Hc.
    now apply (remove_first_NoDup chat_id (notify_chats s) Hnd).
Qed.

Lemma disabled_chat_gets_no_reminder_witness :
  ∃ s',
    disablenotify_handler 1 (-100) (Some Scenario.settled)
    = (Ok NotifyDisabled, Some s')
    ∧ ∀ today msgs l,
        daily_reminder today (Some s') = (Ok msgs, Some s') →
        (-100, l) ∉ msgs.
Proof.
  apply (disabled_chat_gets_no_reminder Scenario.settled 1 (-100));
    apply (bool_decide_unpack _); vm_compute; exact I.
Defined.

(** ** Schedule views *)









(** With a Sunday start the same command does show the rotation. *)
Example next_with_sunday_start :
  next_handler (ymd 2025 12 3) (Some Scenario.sunday_start)
  = (Ok (DutyOn (ymd 2025 12 7) (Some "B"%string)),
     Some Scenario.sunday_start).
Proof. reflexivity. Qed.

Lemma mod7_iff x : x mod 7 = 0 ↔ ∃ q, x = 7 * q.
Proof.
  split.
  - intros H. exists (x / 7). pose proof (Z.div_mod x 7 ltac:(lia)). lia.
  - intros [q ->]. rewrite Z.mul_comm. now apply Z.mod_mul.
Qed.

(** Where the month listing starts: on the cadence, not before the
    rotation or the month, and no later than any such date. *)
Lemma first_duty_day_spec first_day start s :
  0 < start → first_day + 6 ≤ MAXORDINAL →
  ∃ c, returns (first_duty_day first_day start) s c
       ∧ (c - start) mod 7 = 0 ∧ start ≤ c ∧ first_day ≤ c
       ∧ c < Z.max start first_day + 7
       ∧ ∀ d, start ≤ d → first_day ≤ d → (d - start) mod 7 = 0 → c ≤ d.
Proof.
  intros Hs Hmax. unfold first_duty_day.
  destruct (decide (first_day ≤ start)) as [Hle|Hgt].
  - exists start. split; [reflexivity|]. rewrite Z.sub_diag.
    repeat split; try done; lia.
  - set (q := (first_day - start + 6) / 7).
    pose proof (Z.div_mod (first_day - start + 6) 7 ltac:(lia)) as Hd.
    pose proof (Z.mod_pos_bound (first_day - start + 6) 7 ltac:(lia)) as Hm.
    fold q in Hd. exists (start + 7 * q).
    split; [apply add_days_in; lia|]. repeat split; try lia.
    + apply mod7_iff. exists q. lia.
    + intros d Hs' Hf Hc. apply mod7_iff in Hc as [q' Hq']. lia.
Qed.

Lemma month_lines_spec s last_day :
  0 < start_date s + 7 → last_day + 7 ≤ MAXORDINAL →
  ∀ fuel curr,
  0 < curr →
  last_day - curr < 7 * Z.of_nat fuel →
  ∃ ls, returns (month_lines fuel curr last_day) s ls
        ∧ (∀ d, d ∈ ls.*1 ↔ curr ≤ d ≤ last_day ∧ (d - curr) mod 7 = 0)
        ∧ (∀ d l, (d, l) ∈ ls →
                  ∃ a, returns (get_duty_member d) s a ∧ l = label <$> a).
Proof.
  intros Hs Hmax.
  induction fuel as [|fuel IH]; intros curr Hcurr Hfuel; cbn [month_lines].
  - rewrite decide_False by lia. exists []. split; [reflexivity | split].
    + intros d. cbn. rewrite elem_of_nil. split; [done | lia].
    + intros d l H. now apply elem_of_nil in H.
  - destruct (decide (curr ≤ last_day)) as [Hle|Hgt].
    + destruct (get_duty_member_outcome curr s) as (r & Hr & _ & Hroom).
      destruct (Hroom Hs ltac:(lia)) as [a ->].
      destruct (IH (curr + 7) ltac:(lia) ltac:(lia))
        as (ls & Hls & Hdates & Hduty).
      exists ((curr, label <$> a) :: ls). split; [|split].
      * eapply returns_bind.
        { unfold returns, get_duty_for_day. now step_with Hr. }
        eapply returns_bind; [apply add_days_in; lia|].
        eapply returns_bind; [exact Hls | reflexivity].
      * intros d. cbn. rewrite elem_of_cons, Hdates, !mod7_iff. split.
        -- intros [->|(Hr' & q & Hq)].
           ++ split; [lia | exists 0; lia].
           ++ split; [lia | exists (q + 1); lia].
        -- intros (Hr' & q & Hq).
           destruct (decide (d = curr)) as [->|Hne]; [now left | right].
           split; [lia | exists (q - 1); lia].
      * intros d l H. apply elem_of_cons in H as [[= -> ->]|H]; eauto.
    + exists []. split; [reflexivity | split].
      * intros d. cbn. rewrite elem_of_nil. split; [done | lia].
      * intros d l H. now apply elem_of_nil in H.
Qed.

(** X21: for a start date that is a date and a month whose last day has a
    week to spare in the calendar, the month view lists exactly the
    cadence dates between the first and the last day of the month, each
    with the label [get_duty_member] gives it or with nobody; the loop
    ends and leaves the state alone. *)
Theorem calendar_lists_month_duties first_day last_day s :
  is_date (start_date s) →
  first_day ≤ last_day →
  last_day + 7 ≤ MAXORDINAL →
  ∃ ls,
    returns (calendar_lines first_day last_day) s ls
    ∧ (∀ d, d ∈ ls.*1
            ↔ first_day ≤ d ≤ last_day ∧ ∃ k, d = cadence s k)
    ∧ (∀ d l, (d, l) ∈ ls →
              ∃ a, returns (get_duty_member d) s a ∧ l = label <$> a).
Proof.
  intros [Hstart _] Hmonth Hmax.
  destruct (first_duty_day_spec first_day (start_date s) s Hstart
              ltac:(lia))
    as (c & Hrun & Hc & Hs & Hf & _ & Hleast).
  assert (Hiff : ∀ d, (c ≤ d ≤ last_day ∧ (d - c) mod 7 = 0)
                      ↔ (first_day ≤ d ≤ last_day ∧ ∃ k, d = cadence s k)).
  { intros d. apply mod7_iff in Hc as [q0 Hq0]. split.
    - intros (Hr & Hm). apply mod7_iff in Hm as [q Hq].
      split; [lia|]. exists (Z.to_nat (q0 + q)). unfold cadence. lia.
    - intros (Hr & k & ->). unfold cadence in *.
      assert (c ≤ start_date s + 7 * Z.of_nat k).
      { apply Hleast; [lia | lia |]. apply mod7_iff. exists (Z.of_nat k). lia. }
      split; [lia|]. apply mod7_iff. exists (Z.of_nat k - q0). lia. }
  unfold calendar_lines.
  destruct (decide (c > last_day)) as [Hgt|Hle].
  - exists []. split; [|split].
    + unfold returns, get_start_date. step_with (returns_gets start_date s).
      step_with Hrun. now rewrite decide_True.
    + intros d. rewrite <- Hiff. cbn. rewrite elem_of_nil. split; [done | lia].
    + intros d l H. now apply elem_of_nil in H.
  - destruct (month_lines_spec s last_day ltac:(lia) Hmax
                (S (Z.to_nat ((last_day - c) / 7))) c ltac:(lia))
      as (ls & Hls & Hdates & Hduty).
    { apply fuel_enough. lia. }
    exists ls. split; [|split].
    + unfold returns, get_start_date. step_with (returns_gets start_date s).
      step_with Hrun. now rewrite decide_False.
    + intros d. now rewrite Hdates, Hiff.
    + exact Hduty.
Qed.

Lemma calendar_lists_month_duties_witness :
  ∃ ls,
    returns (calendar_lines (ymd 2025 12 1) (ymd 2025 12 31)) Sample.plain ls
    ∧ (∀ d, d ∈ ls.*1
            ↔ ymd 2025 12 1 ≤ d ≤ ymd 2025 12 31
              ∧ ∃ k, d = cadence Sample.plain k)
    ∧ (∀ d l, (d, l) ∈ ls →
              ∃ a, returns (get_duty_member d) Sample.plain a
                   ∧ l = label <$> a).
Proof.
  apply (calendar_lists_month_duties (ymd 2025 12 1) (ymd 2025 12 31)
           Sample.plain);
    [in_calendar | vm_compute; discriminate | vm_compute; discriminate].
Defined.

(** December 2025 of the plain rotation. *)
Example calendar_december :
  returns (calendar_lines (ymd 2025 12 1) (ymd 2025 12 31)) Sample.plain
          [(ymd 2025 12 1, Some "A"%string); (ymd 2025 12 8, Some "B"%string);
           (ymd 2025 12 15, Some "C"%string); (ymd 2025 12 22, Some "A"%string);
           (ymd 2025 12 29, Some "B"%string)].
Proof. reflexivity. Qed.
